(** * json-path: the JSONPath engine of [src/index.ts]

    A shallow embedding of the query engine of the command line tool
    ([queryJsonPath], [tokenize], [applyToken], [collectRecursive] and
    [evaluateFilter]) together with the properties of the specification
    that concern it.

    Conventions of the embedding.
    - A JavaScript string is a [string]: a sequence of code units below 256.
    - The integers that [parseInt] produces and the loop counters that are
      computed from them are elements of [Z]; [None] stands for [NaN].
      Integer arithmetic on doubles is exact below 2^53, and the embedding
      takes it to be exact everywhere.
    - The numbers of a document are kept abstract (class [JsNumber]): the
      engine only compares them.
    - A loop whose termination depends on the data takes a [fuel] bound on
      its number of iterations and answers [OutOfFuel] when the bound is
      reached. *)

From Stdlib Require Import Bool Ascii String List ZArith Lia.
Import ListNotations.

Local Open Scope string_scope.
Local Open Scope list_scope.

(** ** Characters and strings *)

Definition dquote : ascii := ascii_of_nat 34.
Definition squote : ascii := "'"%char.

Definition code (c : ascii) : nat := nat_of_ascii c.

Definition between (lo hi : nat) (c : ascii) : bool :=
  (lo <=? code c)%nat && (code c <=? hi)%nat.

(** [\d] *)
Definition is_digit (c : ascii) : bool := between 48 57 c.

(** [\w] *)
Definition is_word (c : ascii) : bool :=
  between 65 90 c || between 97 122 c || is_digit c || Ascii.eqb c "_"%char.

(** [\s], which is also the white space that [parseInt] skips: tab, line
    feed, vertical tab, form feed, carriage return, space, no-break space. *)
Definition is_space (c : ascii) : bool :=
  between 9 13 c || (code c =? 32)%nat || (code c =? 160)%nat.

(** [.] of a regular expression: any character but a line terminator. *)
Definition is_dot (c : ascii) : bool :=
  negb ((code c =? 10)%nat || (code c =? 13)%nat).

(** the class of the two quote characters *)
Definition is_quote (c : ascii) : bool :=
  Ascii.eqb c squote || Ascii.eqb c dquote.

Definition is_bracket (c : ascii) : bool :=
  Ascii.eqb c "["%char || Ascii.eqb c "]"%char.

Fixpoint string_filter (p : ascii -> bool) (s : string) : string :=
  match s with
  | EmptyString => EmptyString
  | String c r => if p c then String c (string_filter p r) else string_filter p r
  end.

Fixpoint string_forallb (p : ascii -> bool) (s : string) : bool :=
  match s with
  | EmptyString => true
  | String c r => p c && string_forallb p r
  end.

Fixpoint string_existsb (p : ascii -> bool) (s : string) : bool :=
  match s with
  | EmptyString => false
  | String c r => p c || string_existsb p r
  end.


(** [s.includes(c)] for a one character string *)
Definition includes (s : string) (c : ascii) : bool :=
  string_existsb (Ascii.eqb c) s.

(** [s.slice(1)] *)
Definition slice1 (s : string) : string :=
  match s with
  | EmptyString => EmptyString
  | String _ r => r
  end.

(** a string as a condition: the empty string is falsy *)
Definition truthy_string (s : string) : bool :=
  match s with
  | EmptyString => false
  | String _ _ => true
  end.

(** [s.replace(q, empty)] for the global pattern [q] of the quote class *)
Definition strip_quotes (s : string) : string :=
  string_filter (fun c => negb (is_quote c)) s.

(** [/^\d+$/.test(s)] *)
Definition all_digits (s : string) : bool :=
  truthy_string s && string_forallb is_digit s.

(** the test of [s] against a leading quote character *)
Definition starts_with_quote (s : string) : bool :=
  match s with
  | EmptyString => false
  | String c _ => is_quote c
  end.

(** [s.split(c)]: the pieces between the occurrences of [c]; never empty. *)
Fixpoint split (c : ascii) (s : string) : list string :=
  match s with
  | EmptyString => [EmptyString]
  | String d r =>
      if Ascii.eqb d c then EmptyString :: split c r
      else match split c r with
           | [] => [String d EmptyString]
           | p :: ps => String d p :: ps
           end
  end.

(** [strip_prefix p s] is [Some r] when [s = p ++ r]. *)
Fixpoint strip_prefix (p s : string) : option string :=
  match p with
  | EmptyString => Some s
  | String a p' =>
      match s with
      | EmptyString => None
      | String b s' => if Ascii.eqb a b then strip_prefix p' s' else None
      end
  end.

(** [s.startsWith(p)] *)
Definition startsWith (s p : string) : bool :=
  match strip_prefix p s with
  | Some _ => true
  | None => false
  end.

Fixpoint drop_while (p : ascii -> bool) (s : string) : string :=
  match s with
  | EmptyString => EmptyString
  | String c r => if p c then drop_while p r else s
  end.

Fixpoint take_while (p : ascii -> bool) (s : string) : string :=
  match s with
  | EmptyString => EmptyString
  | String c r => if p c then String c (take_while p r) else EmptyString
  end.

(** ** [parseInt(s, 10)] *)

Definition digit_value (c : ascii) : Z := Z.of_nat (code c - 48).

Fixpoint decimal_value (acc : Z) (digits : string) : Z :=
  match digits with
  | EmptyString => acc
  | String c r => decimal_value (10 * acc + digit_value c) r
  end.

(** White space is skipped, one sign is read, and the longest run of
    decimal digits that follows is the value; no digit gives [NaN]. *)
Definition parseInt (s : string) : option Z :=
  let t := drop_while is_space s in
  let '(sign, body) :=
    match t with
    | String c r =>
        if Ascii.eqb c "-"%char then ((-1)%Z, r)
        else if Ascii.eqb c "+"%char then (1%Z, r)
        else (1%Z, t)
    | EmptyString => (1%Z, t)
    end in
  let digits := take_while is_digit body in
  if truthy_string digits then Some (sign * decimal_value 0 digits)%Z else None.

(** ** Regular expressions

    The fragment of ECMAScript regular expressions that the engine uses,
    matched by backtracking in the order of the language: a greedy
    quantifier tries the longest repetition first, a lazy one the shortest,
    an alternation its branches from left to right. *)

Inductive regex : Type :=
| Chars (text : string)            (* literal characters *)
| OptChar (c : ascii)              (* [c?] *)
| Star (cls : ascii -> bool)       (* [cls*] *)
| Plus (cls : ascii -> bool)       (* [cls+] *)
| LazyPlus (cls : ascii -> bool)   (* [cls+?] *)
| Alt (branches : list string)     (* [a|b|c], literal branches *)
| Group (r : regex)                (* [(r)], capturing *)
| Seq (r1 r2 : regex).

Section Matcher.
Variable A : Type.

Definition or_else (x : option A) (y : unit -> option A) : option A :=
  match x with
  | Some a => Some a
  | None => y tt
  end.

Fixpoint greedy_star (cls : ascii -> bool) (s : string)
         (k : string -> option A) : option A :=
  match s with
  | String c r =>
      if cls c then or_else (greedy_star cls r k) (fun _ => k s) else k s
  | EmptyString => k s
  end.

Fixpoint lazy_star (cls : ascii -> bool) (s : string)
         (k : string -> option A) : option A :=
  or_else (k s) (fun _ =>
    match s with
    | String c r => if cls c then lazy_star cls r k else None
    | EmptyString => None
    end).

Fixpoint first_branch (branches : list string) (s : string)
         (k : string -> option A) : option A :=
  match branches with
  | [] => None
  | b :: bs =>
      or_else
        (match strip_prefix b s with
         | Some r => k r
         | None => None
         end)
        (fun _ => first_branch bs s k)
  end.

(** the text between the start [s] of a group and the rest [r] after it *)
Definition consumed (s r : string) : string :=
  substring 0 (String.length s - String.length r) s.

Fixpoint rmatch (r : regex) (s : string) (caps : list string)
         (k : string -> list string -> option A) : option A :=
  match r with
  | Chars t =>
      match strip_prefix t s with
      | Some rest => k rest caps
      | None => None
      end
  | OptChar c =>
      match s with
      | String d rest =>
          if Ascii.eqb c d
          then or_else (k rest caps) (fun _ => k s caps)
          else k s caps
      | EmptyString => k s caps
      end
  | Star cls => greedy_star cls s (fun rest => k rest caps)
  | Plus cls =>
      match s with
      | String c rest =>
          if cls c then greedy_star cls rest (fun rest' => k rest' caps)
          else None
      | EmptyString => None
      end
  | LazyPlus cls =>
      match s with
      | String c rest =>
          if cls c then lazy_star cls rest (fun rest' => k rest' caps)
          else None
      | EmptyString => None
      end
  | Alt branches => first_branch branches s (fun rest => k rest caps)
  | Group r1 =>
      rmatch r1 s caps (fun rest caps' => k rest (caps' ++ [consumed s rest]))
  | Seq r1 r2 =>
      rmatch r1 s caps (fun rest caps' => rmatch r2 rest caps' k)
  end.
End Matcher.

Arguments or_else {A} x y.
Arguments greedy_star {A} cls s k.
Arguments lazy_star {A} cls s k.
Arguments first_branch {A} branches s k.
Arguments rmatch {A} r s caps k.

(** [s.match(/^r$/)]: the captures of the first match of the whole of [s]. *)
Definition match_anchored (r : regex) (s : string) : option (list string) :=
  rmatch r s [] (fun rest caps =>
    match rest with
    | EmptyString => Some caps
    | String _ _ => None
    end).

Declare Scope regex_scope.
Delimit Scope regex_scope with re.
Infix ";;" := Seq (at level 61, right associativity) : regex_scope.

(** [/^\(?\s*@\.(\w+)\s*(==|!=|>=|<=|>|<)\s*(.+?)\s*\)?$/] *)
Definition filter_operators : list string :=
  ["=="; "!="; ">="; "<="; ">"; "<"].

Definition filter_regex : regex :=
  (OptChar "("%char ;; Star is_space ;; Chars "@." ;;
   Group (Plus is_word) ;; Star is_space ;;
   Group (Alt filter_operators) ;; Star is_space ;;
   Group (LazyPlus is_dot) ;; Star is_space ;; OptChar ")"%char)%re.

(** ** Tokens and the tokenizer *)

Inductive TokenType : Type :=
| property | index | wildcard | recursive | filter | slice.

Record Token : Type := mkToken { type : TokenType; value : string }.

(** The loop that reads a name, up to the next dot or opening bracket or
    the end of the input: the name that is read and the input that is left. *)
Fixpoint scan_name (s : string) : string * string :=
  match s with
  | EmptyString => (EmptyString, EmptyString)
  | String c r =>
      if Ascii.eqb c "."%char || Ascii.eqb c "["%char then (EmptyString, s)
      else let '(prop, rest) := scan_name r in (String c prop, rest)
  end.

(** [while (i < expr.length && depth > 0)]: the content that is read and
    the input that is left. *)
Fixpoint scan_bracket (depth : nat) (s : string) {struct s} : string * string :=
  match s with
  | EmptyString => (EmptyString, EmptyString)
  | String c r =>
      if (depth =? 0)%nat then (EmptyString, s)
      else
        let depth1 := if Ascii.eqb c "["%char then S depth else depth in
        let depth2 := if Ascii.eqb c "]"%char then pred depth1 else depth1 in
        let '(content, rest) := scan_bracket depth2 r in
        (if (0 <? depth2)%nat then String c content else content, rest)
  end.

(** the classification of the content of a bracket *)
Definition bracket_token (content : string) : Token :=
  if String.eqb content "*" then mkToken wildcard "*"
  else if startsWith content "?" then mkToken filter (slice1 content)
  else if includes content ":"%char then mkToken slice content
  else if all_digits content then mkToken index content
  else mkToken property (strip_quotes content).

(** One turn of the outer loop of [tokenize] on the input that is left:
    the tokens it pushes and the input it leaves; [None] at the end. *)
Definition tokenize_step (expr : string) : option (list Token * string) :=
  match expr with
  | EmptyString => None
  | String c rest =>
      if Ascii.eqb c "."%char then
        match rest with
        | String d rest2 =>
            if Ascii.eqb d "."%char then
              let '(prop, r) := scan_name rest2 in
              Some ([mkToken recursive prop], r)
            else if Ascii.eqb d "*"%char then
              Some ([mkToken wildcard "*"], rest2)
            else
              let '(prop, r) := scan_name rest in
              Some (if truthy_string prop then [mkToken property prop] else [], r)
        | EmptyString => Some ([], EmptyString)
        end
      else if Ascii.eqb c "["%char then
        let '(content, r) := scan_bracket 1 rest in
        Some ([bracket_token content], r)
      else Some ([], rest)
  end.

Fixpoint tokenize_loop (fuel : nat) (expr : string) (tokens : list Token)
  : list Token :=
  match fuel with
  | O => tokens
  | S fuel' =>
      match tokenize_step expr with
      | None => tokens
      | Some (pushed, rest) => tokenize_loop fuel' rest (tokens ++ pushed)
      end
  end.

(** Every turn of the loop consumes a character, so the length of the
    input bounds the number of turns. *)
Definition tokenize (expr : string) : list Token :=
  tokenize_loop (String.length expr) expr [].


(** ** Values *)

(** The numbers of JavaScript other than [NaN], with the comparisons the
    engine applies to them and the conversion [Number(s)] of a string
    ([None] when the conversion gives [NaN]). *)
Class JsNumber : Type := {
  number : Type;
  num_eq : number -> number -> bool;   (* [===] *)
  num_gt : number -> number -> bool;   (* [>] *)
  num_lt : number -> number -> bool;   (* [<] *)
  num_ge : number -> number -> bool;   (* [>=] *)
  num_le : number -> number -> bool;   (* [<=] *)
  toNumber : string -> option number
}.

(** The integers as an instance, for documents whose numbers are integers:
    the conversion accepts the decimal integer literals, with a sign. *)
Definition integer_literal (s : string) : option Z :=
  let '(sign, body) :=
    match s with
    | String c r => if Ascii.eqb c "-"%char then ((-1)%Z, r) else (1%Z, s)
    | EmptyString => (1%Z, s)
    end in
  if all_digits body then Some (sign * decimal_value 0 body)%Z else None.

Definition ZNumber : JsNumber :=
  {| number := Z;
     num_eq := Z.eqb; num_gt := Z.gtb; num_lt := Z.ltb;
     num_ge := Z.geb; num_le := Z.leb;
     toNumber := integer_literal |}.

(** The values that the engine handles. The first six constructors are the
    type [JsonValue] of the source, the values that [JSON.parse] builds; an
    object lists its own properties in the order in which [Object.values]
    enumerates them. Property access on an object goes through its
    prototype, and the cast [input as Record<string, JsonValue>] is not
    checked, so that two more kinds of value reach the engine at run time:
    [Object.prototype] itself and its function-valued members. *)
#[warnings="-register-all"]
Inductive JsonValue {N : JsNumber} : Type :=
| JNull
| JBool (b : bool)
| JNumber (n : number)
| JString (s : string)
| JArray (items : list JsonValue)
| JObject (fields : list (string * JsonValue))
| ObjectPrototype
| Builtin (name : string).

(** the outcome of a computation *)
Inductive outcome (A : Type) : Type :=
| Returned (a : A)
| Thrown (message : string)
| OutOfFuel.

Arguments Returned {A} a.
Arguments Thrown {A} message.
Arguments OutOfFuel {A}.

(** The right-hand side of a filter after decoding: [compareVal] only ever
    holds a primitive. *)
Inductive Comparable {N : JsNumber} : Type :=
| CBool (b : bool)
| CNull
| CString (s : string)
| CNumber (n : number).

(** the function-valued properties of [Object.prototype] *)
Definition prototype_functions : list string :=
  ["constructor"; "__defineGetter__"; "__defineSetter__"; "hasOwnProperty";
   "__lookupGetter__"; "__lookupSetter__"; "isPrototypeOf";
   "propertyIsEnumerable"; "toString"; "valueOf"; "toLocaleString"].

Definition string_mem (s : string) (l : list string) : bool :=
  existsb (String.eqb s) l.

Section Engine.
Context {N : JsNumber}.

(** own properties *)
Fixpoint own (fields : list (string * JsonValue)) (key : string)
  : option JsonValue :=
  match fields with
  | [] => None
  | (k, v) :: rest => if String.eqb k key then Some v else own rest key
  end.

(** [Object.prototype[key]] on behalf of an object whose prototype is
    [proto] (the accessor [__proto__] answers the prototype of the
    receiver) *)
Definition prototype_get (proto : JsonValue) (key : string)
  : option JsonValue :=
  if String.eqb key "__proto__" then Some proto
  else if string_mem key prototype_functions then Some (Builtin key)
  else None.

(** [record[key]]; [None] is [undefined] *)
Definition get (record : JsonValue) (key : string) : option JsonValue :=
  match record with
  | JObject fields =>
      match own fields key with
      | Some v => Some v
      | None => prototype_get ObjectPrototype key
      end
  | ObjectPrototype => prototype_get JNull key
  | _ => None
  end.

(** [key in record] *)
Definition has (record : JsonValue) (key : string) : bool :=
  match record with
  | JObject fields =>
      match own fields key with
      | Some _ => true
      | None =>
          String.eqb key "__proto__" || string_mem key prototype_functions
      end
  | ObjectPrototype =>
      String.eqb key "__proto__" || string_mem key prototype_functions
  | _ => false
  end.

(** [Object.values(record)] *)
Definition values (record : JsonValue) : list JsonValue :=
  match record with
  | JObject fields => map snd fields
  | _ => []
  end.

(** [Array.isArray(v)] *)
Definition isArray (v : JsonValue) : bool :=
  match v with
  | JArray _ => true
  | _ => false
  end.

(** [v && typeof v === "object"]: among the values whose type is
    [object], only [null] is falsy. *)
Definition is_object (v : JsonValue) : bool :=
  match v with
  | JArray _ | JObject _ | ObjectPrototype => true
  | _ => false
  end.

(** [results.push(v)] *)
Definition push (results : list JsonValue) (v : JsonValue) :=
  results ++ [v].

(** [results.push(record[key])] where [record[key]] is defined *)
Definition push_get (results : list JsonValue) (record : JsonValue)
           (key : string) : list JsonValue :=
  match get record key with
  | Some v => push results v
  | None => results
  end.

(** [input[i]] for [0 <= i < input.length] *)
Definition push_at (results input : list JsonValue) (i : Z)
  : list JsonValue :=
  match nth_error input (Z.to_nat i) with
  | Some v => push results v
  | None => results
  end.

Definition in_bounds (input : list JsonValue) (i : Z) : bool :=
  (0 <=? i)%Z && (i <? Z.of_nat (length input))%Z.

(** *** [collectRecursive] *)

Fixpoint collectRecursive (obj : JsonValue) (prop : string)
         (results : list JsonValue) {struct obj} : list JsonValue :=
  match obj with
  | JObject fields =>
      let results1 :=
        if has obj prop then push_get results obj prop else results in
      (fix each (vals : list (string * JsonValue)) (acc : list JsonValue) :=
         match vals with
         | [] => acc
         | (_, val) :: rest => each rest (collectRecursive val prop acc)
         end) fields results1
  | JArray items =>
      (fix each (its : list JsonValue) (acc : list JsonValue) :=
         match its with
         | [] => acc
         | item :: rest => each rest (collectRecursive item prop acc)
         end) items results
  | ObjectPrototype =>
      if has obj prop then push_get results obj prop else results
  | _ => results
  end.

(** *** [evaluateFilter] *)

Definition decode_literal (rawValue : string) : Comparable :=
  if String.eqb rawValue "true" then CBool true
  else if String.eqb rawValue "false" then CBool false
  else if String.eqb rawValue "null" then CNull
  else if starts_with_quote rawValue then CString (strip_quotes rawValue)
  else match toNumber rawValue with
       | Some n => CNumber n
       | None => CString rawValue
       end.

(** [fieldVal === compareVal] *)
Definition strict_equal (fieldVal : JsonValue) (compareVal : Comparable)
  : bool :=
  match fieldVal, compareVal with
  | JBool a, CBool b => Bool.eqb a b
  | JNull, CNull => true
  | JString a, CString b => String.eqb a b
  | JNumber a, CNumber b => num_eq a b
  | _, _ => false
  end.

(** [typeof fieldVal === "number" && typeof compareVal === "number" &&
    fieldVal op compareVal] *)
Definition both_numbers (op : number -> number -> bool)
           (fieldVal : JsonValue) (compareVal : Comparable) : bool :=
  match fieldVal, compareVal with
  | JNumber a, CNumber b => op a b
  | _, _ => false
  end.

Definition compare (op : string) (fieldVal : JsonValue)
           (compareVal : Comparable) : bool :=
  if String.eqb op "==" then strict_equal fieldVal compareVal
  else if String.eqb op "!=" then negb (strict_equal fieldVal compareVal)
  else if String.eqb op ">" then both_numbers num_gt fieldVal compareVal
  else if String.eqb op "<" then both_numbers num_lt fieldVal compareVal
  else if String.eqb op ">=" then both_numbers num_ge fieldVal compareVal
  else if String.eqb op "<=" then both_numbers num_le fieldVal compareVal
  else false.

Definition evaluateFilter (item : JsonValue) (filterExpr : string) : bool :=
  match match_anchored filter_regex filterExpr with
  | Some [field; op; rawValue] =>
      if negb (is_object item) || isArray item then false
      else
        match get item field with
        | None => false
        | Some fieldVal => compare op fieldVal (decode_literal rawValue)
        end
  | _ => false
  end.

(** *** [applyToken] *)

(** the numbers of a slice: an integer or [NaN] *)
Definition js_lt (a b : option Z) : bool :=
  match a, b with
  | Some x, Some y => (x <? y)%Z
  | _, _ => false
  end.

Definition js_add (a b : option Z) : option Z :=
  match a, b with
  | Some x, Some y => Some (x + y)%Z
  | _, _ => None
  end.

(** [token.value.split(":").map((p) => (p ? parseInt(p, 10) : undefined))];
    the outer [None] is [undefined]. *)
Definition slice_parts (text : string) : list (option (option Z)) :=
  map (fun p => if truthy_string p then Some (parseInt p) else None)
      (split ":"%char text).

(** [parts[i] ?? d] *)
Definition part_or (parts : list (option (option Z))) (i : nat)
           (d : Z) : option Z :=
  match nth_error parts i with
  | Some (Some n) => n
  | _ => Some d
  end.

(** [for (let si = start; si < end; si += step)
       if (si >= 0 && si < input.length) results.push(input[si])] *)
Fixpoint slice_loop (fuel : nat) (input : list JsonValue)
         (si end_ step : option Z) (results : list JsonValue)
  : outcome (list JsonValue) :=
  if js_lt si end_ then
    match fuel with
    | O => OutOfFuel
    | S fuel' =>
        let results' :=
          match si with
          | Some i => if in_bounds input i then push_at results input i
                      else results
          | None => results
          end in
        slice_loop fuel' input (js_add si step) end_ step results'
    end
  else Returned results.

(** the body of the loop of [applyToken] for one input *)
Definition apply_input (fuel : nat) (token : Token) (input : JsonValue)
           (results : list JsonValue) : outcome (list JsonValue) :=
  match type token with
  | property =>
      if is_object input && negb (isArray input) then
        match get input (value token) with
        | Some val => Returned (push results val)
        | None => Returned results
        end
      else Returned results
  | index =>
      match input with
      | JArray items =>
          match parseInt (value token) with
          | Some idx =>
              if in_bounds items idx
              then Returned (push_at results items idx)
              else Returned results
          | None => Returned results
          end
      | _ => Returned results
      end
  | wildcard =>
      match input with
      | JArray items => Returned (results ++ items)
      | _ =>
          if is_object input then Returned (results ++ values input)
          else Returned results
      end
  | recursive => Returned (collectRecursive input (value token) results)
  | filter =>
      match input with
      | JArray items =>
          Returned
            (results
               ++ List.filter (fun item => evaluateFilter item (value token))
                    items)
      | _ => Returned results
      end
  | slice =>
      match input with
      | JArray items =>
          let parts := slice_parts (value token) in
          let start := part_or parts 0 0 in
          let end_ := part_or parts 1 (Z.of_nat (length items)) in
          let step := part_or parts 2 1 in
          slice_loop fuel items start end_ step results
      | _ => Returned results
      end
  end.

Fixpoint apply_inputs (fuel : nat) (token : Token) (inputs : list JsonValue)
         (results : list JsonValue) : outcome (list JsonValue) :=
  match inputs with
  | [] => Returned results
  | input :: rest =>
      match apply_input fuel token input results with
      | Returned results' => apply_inputs fuel token rest results'
      | Thrown m => Thrown m
      | OutOfFuel => OutOfFuel
      end
  end.

Definition applyToken (fuel : nat) (inputs : list JsonValue) (token : Token)
  : outcome (list JsonValue) :=
  apply_inputs fuel token inputs [].

(** *** [queryJsonPath] *)

Fixpoint apply_tokens (fuel : nat) (tokens : list Token)
         (results : list JsonValue) : outcome (list JsonValue) :=
  match tokens with
  | [] => Returned results
  | token :: rest =>
      match applyToken fuel results token with
      | Returned results' => apply_tokens fuel rest results'
      | Thrown m => Thrown m
      | OutOfFuel => OutOfFuel
      end
  end.

Definition error_message (expression : string) : string :=
  "Expression must start with $. Got: "
    ++ String dquote expression ++ String dquote EmptyString.

Definition queryJsonPath (fuel : nat) (data : JsonValue)
           (expression : string) : outcome (list JsonValue) :=
  if startsWith expression "$" then
    apply_tokens fuel (tokenize (slice1 expression)) [data]
  else Thrown (error_message expression).
End Engine.


(** ** Notions of the specification *)

(** *** Positions of the tokenizer

    [turns n expr tokens] is the state of [tokenize] after [n] turns of its
    loop: the tokens pushed so far and the input that is left. *)
Fixpoint turns (n : nat) (expr : string) (tokens : list Token)
  : option (list Token * string) :=
  match n with
  | O => Some (tokens, expr)
  | S n' =>
      match tokenize_step expr with
      | None => None
      | Some (pushed, rest) => turns n' rest (tokens ++ pushed)
      end
  end.

(** [never_closes depth s]: no closing bracket of [s] brings the nesting
    depth, [depth] at the start of [s], down to zero. *)
Fixpoint never_closes (depth : nat) (s : string) : bool :=
  match s with
  | EmptyString => true
  | String c r =>
      if Ascii.eqb c "["%char then never_closes (S depth) r
      else if Ascii.eqb c "]"%char
           then (1 <? depth)%nat && never_closes (pred depth) r
           else never_closes depth r
  end.

(** the text after an opening bracket holds no matching closing bracket *)
Definition unmatched (s : string) : bool := never_closes 1 s.

Fixpoint count_char (c : ascii) (s : string) : nat :=
  match s with
  | EmptyString => 0
  | String d r => (if Ascii.eqb d c then 1 else 0) + count_char c r
  end.

(** [s.slice(0, n)] *)
Definition take (n : nat) (s : string) : string := substring 0 n s.

(** *** The language of a regular expression

    [parses r s caps]: [s] is a word of [r], and [caps] are the texts of
    the groups of [r] in one way of reading [s] as such a word. *)

Fixpoint parses (r : regex) (s : string) (caps : list string) : Prop :=
  match r with
  | Chars t => s = t /\ caps = []
  | OptChar c => (s = EmptyString \/ s = String c EmptyString) /\ caps = []
  | Star cls => string_forallb cls s = true /\ caps = []
  | Plus cls => (s <> EmptyString /\ string_forallb cls s = true) /\ caps = []
  | LazyPlus cls =>
      (s <> EmptyString /\ string_forallb cls s = true) /\ caps = []
  | Alt branches => In s branches /\ caps = []
  | Group r1 => exists inner, parses r1 s inner /\ caps = inner ++ [s]
  | Seq r1 r2 =>
      exists s1 s2 c1 c2,
        s = (s1 ++ s2)%string /\ caps = c1 ++ c2 /\
        parses r1 s1 c1 /\ parses r2 s2 c2
  end.

Definition lang (r : regex) (s : string) : Prop := exists caps, parses r s caps.

(** the predicate sources that the filter grammar accepts *)
Definition filter_grammar (source : string) : Prop := lang filter_regex source.

Section Notions.
Context {N : JsNumber}.

(** *** Traversal of a value *)

(** the nodes of a value in pre-order: a node, then the nodes of its
    children from left to right *)
Fixpoint preorder (v : JsonValue) : list JsonValue :=
  v :: match v with
       | JArray items => flat_map preorder items
       | JObject fields => flat_map (fun kv => preorder (snd kv)) fields
       | _ => []
       end.

(** what a node contributes to the recursive descent for the name [p] *)
Definition hit (p : string) (node : JsonValue) : list JsonValue :=
  if is_object node && negb (isArray node) && has node p then
    match get node p with
    | Some v => [v]
    | None => []
    end
  else [].

(** the children of a node *)
Definition children (v : JsonValue) : list JsonValue :=
  match v with
  | JArray items => items
  | JObject fields => map snd fields
  | _ => []
  end.

(** a name that every object inherits from [Object.prototype] *)
Definition inherited (key : string) : bool := has ObjectPrototype key.

(** a token that names no inherited member *)
Definition names_own_members (token : Token) : bool :=
  match type token with
  | property | recursive => negb (inherited (value token))
  | _ => true
  end.

(** [v] occurs in the document [d] *)
Definition present (v d : JsonValue) : Prop := In v (preorder d).

(** the values that come from the run time and not from a document *)
Definition runtime_value (v : JsonValue) : bool :=
  match v with
  | ObjectPrototype | Builtin _ => true
  | _ => false
  end.

(** a value that [JSON.parse] can build *)
Definition is_json (d : JsonValue) : bool :=
  forallb (fun v => negb (runtime_value v)) (preorder d).

(** *** Slices *)




(** the bounds of a slice over an array of length [len] *)
Definition slice_start (text : string) : option Z :=
  part_or (slice_parts text) 0 0.
Definition slice_end (text : string) (len : nat) : option Z :=
  part_or (slice_parts text) 1 (Z.of_nat len).
Definition slice_step (text : string) : option Z :=
  part_or (slice_parts text) 2 1.



(** *** Equality of a field and a literal *)

(** same variant and same value *)
Definition same_value (fieldVal : JsonValue) (literal : Comparable) : Prop :=
  match fieldVal, literal with
  | JNull, CNull => True
  | JBool a, CBool b => a = b
  | JString a, CString b => a = b
  | JNumber a, CNumber b => num_eq a b = true
  | _, _ => False
  end.

(** *** A document of the specification *)

(** [{"a":{"name":"x","b":{"name":"y"}}}] *)
Definition nested_names : JsonValue :=
  JObject [("a", JObject [("name", JString "x");
                          ("b", JObject [("name", JString "y")])])].
End Notions.

(** ** Documents of the specification *)

Definition jnum (z : Z) : @JsonValue ZNumber := @JNumber ZNumber z.

(** [[10,20,30,40,50]] *)
Definition five : @JsonValue ZNumber :=
  JArray [jnum 10; jnum 20; jnum 30; jnum 40; jnum 50].

(** [[1,2,3]] *)
Definition three : @JsonValue ZNumber := JArray [jnum 1; jnum 2; jnum 3].

(** [{"users":[{"name":"Ann","age":30},{"name":"Bo","age":17}]}] *)
Definition ann : @JsonValue ZNumber :=
  JObject [("name", JString "Ann"); ("age", jnum 30)].
Definition bo : @JsonValue ZNumber :=
  JObject [("name", JString "Bo"); ("age", jnum 17)].
Definition users : @JsonValue ZNumber :=
  JObject [("users", JArray [ann; bo])].

(** ** Further notions: paths *)

(** a character that a name after a dot can hold *)
Definition name_char (c : ascii) : bool :=
  negb (Ascii.eqb c "."%char || Ascii.eqb c "["%char).

(** a name that a dot introduces as a Property segment: not empty, made of
    name characters, and not led by a star *)
Definition plain_name (s : string) : bool :=
  match s with
  | EmptyString => false
  | String c _ => negb (Ascii.eqb c "*"%char) && string_forallb name_char s
  end.

(** the input after a name: its end, a dot or an opening bracket *)
Definition boundary (rest : string) : bool :=
  match rest with
  | EmptyString => true
  | String c _ => negb (name_char c)
  end.

(** the path [.n1.n2...] of a list of names *)
Fixpoint dotted (names : list string) : string :=
  match names with
  | [] => EmptyString
  | n :: rest => String "." (n ++ dotted rest)
  end.

(** what the tokenizer promises of a token *)
Definition token_ok (t : Token) : bool :=
  match type t with
  | index => all_digits (value t)
  | slice => includes (value t) ":"%char
  | wildcard => String.eqb (value t) "*"
  | _ => true
  end.


Section PathNotions.
Context {N : JsNumber}.

(** the value at a path of keys, each key an own member of an object *)
Fixpoint at_path (names : list string) (d : JsonValue) : option JsonValue :=
  match names with
  | [] => Some d
  | n :: rest =>
      match d with
      | JObject fields =>
          match own fields n with
          | Some v => at_path rest v
          | None => None
          end
      | _ => None
      end
  end.
End PathNotions.


(** ** Further notions: the sources of filters *)

Definition head_char (s : string) : option ascii :=
  match s with
  | EmptyString => None
  | String c _ => Some c
  end.

Fixpoint last_char (s : string) : option ascii :=
  match s with
  | EmptyString => None
  | String c r =>
      match r with
      | EmptyString => Some c
      | String _ _ => last_char r
      end
  end.

(** the first character of [s], if any, is outside the class *)
Definition head_fails (cls : ascii -> bool) (s : string) : Prop :=
  match head_char s with
  | Some c => cls c = false
  | None => True
  end.

(** a character at an edge of a literal: there is one, and it is no white
    space *)
Definition edge (o : option ascii) : bool :=
  match o with
  | Some c => negb (is_space c)
  | None => false
  end.

(** A literal that a predicate can hold as it stands after the operator
    [op]: not empty, without a line terminator, without white space at its
    edges, and not led by an equals sign after [>] or [<]. *)
Definition plain_literal (op rawValue : string) : bool :=
  edge (head_char rawValue) && edge (last_char rawValue)
  && string_forallb is_dot rawValue
  && negb ((String.eqb op ">" || String.eqb op "<")
           && match head_char rawValue with
              | Some c => Ascii.eqb c "="%char
              | None => false
              end).

(** the end of a predicate: white space and a closing parenthesis at most *)
Definition closing : regex := (Star is_space ;; OptChar ")"%char)%re.

Definition at_end (rest : string) (caps : list string)
  : option (list string) :=
  match rest with
  | EmptyString => Some caps
  | String _ _ => None
  end.

(** the predicate [(@.field op rawValue)] *)
Definition filter_source (field op rawValue : string) : string :=
  "(@." ++ field ++ op ++ rawValue ++ ")".


(** ** The command line: the arguments of [main] *)

(** [args.indexOf(a)]; [None] is -1 *)
Fixpoint indexOf (a : string) (args : list string) : option nat :=
  match args with
  | [] => None
  | x :: rest =>
      if String.eqb x a then Some 0%nat else option_map S (indexOf a rest)
  end.

(** The test of the filter that keeps the positional arguments:
    [!a.startsWith("--") && (args.indexOf(a) === 0 ||
     !["csv", "json"].includes(a) ||
     args[args.indexOf(a) - 1] !== "--format")]. *)
Definition is_positional (args : list string) (a : string) : bool :=
  negb (startsWith a "--")
  && (match indexOf a args with
      | Some O => true
      | _ => false
      end
      || negb (string_mem a ["csv"; "json"])
      || negb match indexOf a args with
              | Some (S i) =>
                  match nth_error args i with
                  | Some before => String.eqb before "--format"
                  | None => false
                  end
              | _ => false
              end).

(** [args.filter(...)] *)
Definition positional (args : list string) : list string :=
  List.filter (is_positional args) args.

(** [positional[0]] and [positional[1]] *)
Definition expression_of (args : list string) : option string :=
  nth_error (positional args) 0.
Definition filePath_of (args : list string) : option string :=
  nth_error (positional args) 1.

(** the words before the expression that are no positional argument: options,
    and the value [csv] or [json] of an option [--format] *)
Inductive option_words : list string -> Prop :=
| no_words : option_words []
| option_word (a : string) (l : list string) :
    startsWith a "--" = true -> option_words l -> option_words (a :: l)
| format_words (v : string) (l : list string) :
    string_mem v ["csv"; "json"] = true -> option_words l ->
    option_words ("--format" :: v :: l).

(** ** The table of [toCsv]: header and cells *)

Definition newline : ascii := ascii_of_nat 10.


(** [str.replace(q, qq)] for the global pattern [q] of the double quote and
    [qq] two double quotes *)
Fixpoint double_quotes (str : string) : string :=
  match str with
  | EmptyString => EmptyString
  | String c r =>
      if Ascii.eqb c dquote then String dquote (String dquote (double_quotes r))
      else String c (double_quotes r)
  end.

(** the text of a cell: quoted when it holds a comma, a double quote or a
    line feed *)
Definition csv_escape (str : string) : string :=
  if includes str ","%char || includes str dquote || includes str newline
  then String dquote (double_quotes str ++ String dquote EmptyString)
  else str.

(** [row.join(",")] of the cells of a row *)
Definition csv_row (texts : list string) : string :=
  String.concat "," (map csv_escape texts).

(** A reader of a line of comma separated values: a cell that begins with
    a double quote runs to the next double quote that is not doubled, and
    two double quotes in it stand for one. *)
Inductive csv_state : Type := Plain | Quoted | Closing.

Fixpoint csv_cells (st : csv_state) (cur : string) (s : string) : list string :=
  match s with
  | EmptyString => [cur]
  | String c r =>
      match st with
      | Plain =>
          if Ascii.eqb c ","%char then cur :: csv_cells Plain EmptyString r
          else if Ascii.eqb c dquote then csv_cells Quoted cur r
          else csv_cells Plain (cur ++ String c EmptyString) r
      | Quoted =>
          if Ascii.eqb c dquote then csv_cells Closing cur r
          else csv_cells Quoted (cur ++ String c EmptyString) r
      | Closing =>
          if Ascii.eqb c dquote
          then csv_cells Quoted (cur ++ String dquote EmptyString) r
          else if Ascii.eqb c ","%char
               then cur :: csv_cells Plain EmptyString r
               else csv_cells Plain (cur ++ String c EmptyString) r
      end
  end.

Definition read_row (line : string) : list string :=
  csv_cells Plain EmptyString line.

Section CsvNotions.
Context {N : JsNumber}.



End CsvNotions.


Section FurtherNotions.
Context {N : JsNumber}.

(** the own member [k] of a value, as a list: empty when the value is no
    object of a document or has no such member *)
Definition own_member (k : string) (item : JsonValue) : list JsonValue :=
  match item with
  | JObject fields =>
      match own fields k with
      | Some v => [v]
      | None => []
      end
  | _ => []
  end.

(** the comparison of numbers that an ordering operator stands for *)
Definition ordering_of (op : string) : option (number -> number -> bool) :=
  if String.eqb op ">" then Some num_gt
  else if String.eqb op "<" then Some num_lt
  else if String.eqb op ">=" then Some num_ge
  else if String.eqb op "<=" then Some num_le
  else None.

(** a literal that is decoded through [Number]: no keyword, no quote *)
Definition bare_literal (rawValue : string) : bool :=
  negb (String.eqb rawValue "true") && negb (String.eqb rawValue "false")
  && negb (String.eqb rawValue "null") && negb (starts_with_quote rawValue).
End FurtherNotions.

(** * Properties *)

(** ** The tokenizer *)

Lemma scan_name_length (s : string) :
  (String.length (snd (scan_name s)) <= String.length s)%nat.
Proof.
  induction s as [|c r IH]; simpl; [lia|].
  destruct (Ascii.eqb c "." || Ascii.eqb c "[")%bool; simpl; [lia|].
  destruct (scan_name r) as [prop rest]; simpl in *; lia.
Qed.

Lemma scan_bracket_length (s : string) (depth : nat) :
  (String.length (snd (scan_bracket depth s)) <= String.length s)%nat.
Proof.
  revert depth; induction s as [|c r IH]; intros depth; simpl; [lia|].
  destruct (depth =? 0)%nat; simpl; [lia|].
  match goal with
  | |- context [scan_bracket ?d r] =>
      specialize (IH d); destruct (scan_bracket d r) as [content rest]
  end.
  simpl in *; lia.
Qed.

Lemma tokenize_step_shrinks (expr rest : string) (pushed : list Token) :
  tokenize_step expr = Some (pushed, rest) ->
  (String.length rest < String.length expr)%nat.
Proof.
  destruct expr as [|c r]; simpl; [discriminate|].
  destruct (Ascii.eqb c ".").
  - destruct r as [|d r2]; [intros [= _ <-]; simpl; lia|].
    destruct (Ascii.eqb d ".").
    + pose proof (scan_name_length r2) as L.
      destruct (scan_name r2) as [prop r']; intros [= _ <-]; simpl in *; lia.
    + destruct (Ascii.eqb d "*"); [intros [= _ <-]; simpl; lia|].
      pose proof (scan_name_length (String d r2)) as L.
      destruct (scan_name (String d r2)) as [prop r'].
      intros [= _ <-]; simpl in *; lia.
  - destruct (Ascii.eqb c "[").
    + pose proof (scan_bracket_length r 1) as L.
      destruct (scan_bracket 1 r) as [content r']; intros [= _ <-].
      simpl in *; lia.
    + intros [= _ <-]; simpl; lia.
Qed.

Lemma tokenize_loop_fuel (fuel fuel' : nat) (expr : string) (tokens : list Token) :
  (String.length expr <= fuel)%nat -> (String.length expr <= fuel')%nat ->
  tokenize_loop fuel expr tokens = tokenize_loop fuel' expr tokens.
Proof.
  revert fuel' expr tokens.
  induction fuel as [|fuel IH]; intros fuel' expr tokens L L'.
  - destruct expr; [|simpl in L; lia].
    destruct fuel'; reflexivity.
  - destruct fuel' as [|fuel'].
    + destruct expr; [reflexivity|simpl in L'; lia].
    + simpl. destruct (tokenize_step expr) as [[pushed rest]|] eqn:E; [|reflexivity].
      apply tokenize_step_shrinks in E. apply IH; lia.
Qed.

Lemma tokenize_loop_acc (fuel : nat) (expr : string) (tokens : list Token) :
  tokenize_loop fuel expr tokens = tokens ++ tokenize_loop fuel expr [].
Proof.
  revert expr tokens; induction fuel as [|fuel IH]; intros expr tokens; simpl.
  - now rewrite app_nil_r.
  - destruct (tokenize_step expr) as [[pushed rest]|]; [|now rewrite app_nil_r].
    rewrite IH, (IH rest pushed). now rewrite app_assoc.
Qed.

(** the loop of [tokenize], one turn at a time *)
Lemma tokenize_unfold (expr : string) :
  tokenize expr =
  match tokenize_step expr with
  | None => []
  | Some (pushed, rest) => pushed ++ tokenize rest
  end.
Proof.
  unfold tokenize. destruct expr as [|c r]; [reflexivity|].
  cbn [String.length tokenize_loop].
  destruct (tokenize_step (String c r)) as [[pushed rest]|] eqn:E; [|reflexivity].
  apply tokenize_step_shrinks in E. simpl in E.
  rewrite tokenize_loop_acc. simpl.
  f_equal. apply tokenize_loop_fuel; lia.
Qed.

Lemma turns_tokenize (n : nat) (expr rest : string) (acc tokens : list Token) :
  turns n expr acc = Some (tokens, rest) ->
  acc ++ tokenize expr = tokens ++ tokenize rest.
Proof.
  revert expr acc; induction n as [|n IH]; intros expr acc; simpl.
  - now intros [= <- <-].
  - rewrite (tokenize_unfold expr).
    destruct (tokenize_step expr) as [[pushed r]|]; [|discriminate].
    intros H. apply IH in H. now rewrite app_assoc.
Qed.

(** the tokens of a query whose scan reaches the input [rest] *)
Lemma tokenize_from (n : nat) (query rest : string) (tokens : list Token) :
  turns n query [] = Some (tokens, rest) ->
  tokenize query = tokens ++ tokenize rest.
Proof. intros H. now apply turns_tokenize in H. Qed.

Lemma bracket_unfold (s : string) :
  tokenize (String "[" s) =
  bracket_token (fst (scan_bracket 1 s)) :: tokenize (snd (scan_bracket 1 s)).
Proof.
  rewrite tokenize_unfold. simpl.
  now destruct (scan_bracket 1 s).
Qed.

Lemma scan_bracket_zero (s : string) : scan_bracket 0 s = (EmptyString, s).
Proof. now destruct s. Qed.

(** a bracket group without inner brackets: the scan stops at its end *)
Lemma scan_bracket_plain (content rest : string) :
  string_existsb is_bracket content = false ->
  scan_bracket 1 (content ++ String "]" rest)%string = (content, rest).
Proof.
  induction content as [|c r IH]; simpl.
  - intros _. now rewrite scan_bracket_zero.
  - unfold is_bracket at 1.
    destruct (Ascii.eqb c "["); [discriminate|].
    destruct (Ascii.eqb c "]"); [discriminate|].
    simpl. intros H. now rewrite (IH H).
Qed.


(** No closing bracket matches: in every prefix of the text, the closing
    brackets are fewer than the brackets that are open. *)
Lemma never_closes_prefixes (s : string) :
  forall depth,
    (1 <= depth)%nat ->
    never_closes depth s = true <->
    forall n, (count_char "]" (take n s)
               < depth + count_char "[" (take n s))%nat.
Proof.
  unfold take.
  induction s as [|c r IH]; intros depth D; cbn [never_closes].
  - split; [|reflexivity]. intros _ [|n]; cbn; lia.
  - destruct (Ascii.eqb c "[") eqn:Eo; [|destruct (Ascii.eqb c "]") eqn:Ec].
    + assert (Ec : Ascii.eqb c "]" = false).
      { apply Ascii.eqb_eq in Eo. now subst c. }
      rewrite (IH (S depth)) by lia. split.
      * intros H [|n]; cbn [substring count_char]; [cbn; lia|].
        rewrite Eo, Ec. specialize (H n). lia.
      * intros H n. specialize (H (S n)). cbn [substring count_char] in H.
        rewrite Eo, Ec in H. lia.
    + rewrite andb_true_iff, Nat.ltb_lt. split.
      * intros [L H]. assert (P : (1 <= pred depth)%nat) by lia.
        pose proof (proj1 (IH (pred depth) P) H) as H'. clear H.
        rename H' into H.
        intros [|n]; cbn [substring count_char]; [cbn; lia|].
        rewrite Eo, Ec. specialize (H n). lia.
      * intros H.
        assert (L : (1 < depth)%nat).
        { specialize (H 1%nat). cbn [substring count_char] in H.
          rewrite Eo, Ec in H. destruct r; cbn in H; lia. }
        split; [exact L|].
        assert (P : (1 <= pred depth)%nat) by lia.
        apply (proj2 (IH (pred depth) P)).
        intros n. specialize (H (S n)). cbn [substring count_char] in H.
        rewrite Eo, Ec in H. lia.
    + rewrite (IH depth D). split.
      * intros H [|n]; cbn [substring count_char]; [cbn; lia|].
        rewrite Eo, Ec. specialize (H n). lia.
      * intros H n. specialize (H (S n)). cbn [substring count_char] in H.
        rewrite Eo, Ec in H. lia.
Qed.

(** text without a closing bracket holds no matching one *)
Lemma no_closing_unmatched (s : string) :
  includes s "]"%char = false -> unmatched s = true.
Proof.
  unfold unmatched, includes. generalize 1%nat.
  induction s as [|c r IH]; intros depth;
    cbn [string_existsb never_closes]; [reflexivity|].
  rewrite (Ascii.eqb_sym "]"%char c).
  destruct (Ascii.eqb c "]"); [discriminate|].
  cbn [orb]. destruct (Ascii.eqb c "["); auto.
Qed.

Lemma forallb_existsb_false (p q : ascii -> bool) (s : string) :
  (forall c, p c = true -> q c = false) ->
  string_forallb p s = true -> string_existsb q s = false.
Proof.
  intros PQ; induction s as [|c r IH]; simpl; [reflexivity|].
  intros H; apply andb_true_iff in H as [H1 H2].
  now rewrite (PQ c H1), (IH H2).
Qed.

Lemma forallb_filter_id (p q : ascii -> bool) (s : string) :
  (forall c, p c = true -> q c = true) ->
  string_forallb p s = true -> string_filter q s = s.
Proof.
  intros PQ; induction s as [|c r IH]; simpl; [reflexivity|].
  intros H; apply andb_true_iff in H as [H1 H2].
  now rewrite (PQ c H1), (IH H2).
Qed.

Lemma digit_facts (c : ascii) :
  is_digit c = true ->
  is_bracket c = false /\ Ascii.eqb ":"%char c = false /\ is_quote c = false.
Proof.
  destruct c as [[] [] [] [] [] [] [] []]; vm_compute; intuition congruence.
Qed.

(** C2 (as amended). Whenever the scan of a query reaches an opening
    bracket, the tokenizer emits exactly one segment for the bracket group,
    whatever its content, and goes on after the group: content that is not
    the star, does not start with a question mark, holds no colon and is
    not all digits becomes a Property segment named by the content without
    its quote characters; the empty group [[]] becomes the Property segment
    of the empty name. Nothing is skipped. *)
Theorem bracket_emits_one_token
        (query : string) (n : nat) (tokens : list Token) (s : string) :
  turns n query [] = Some (tokens, String "[" s) ->
  let content := fst (scan_bracket 1 s) in
  let rest := snd (scan_bracket 1 s) in
  tokenize query = tokens ++ bracket_token content :: tokenize rest /\
  (String.eqb content "*" = false -> startsWith content "?" = false ->
   includes content ":"%char = false -> all_digits content = false ->
   bracket_token content = mkToken property (strip_quotes content)) /\
  (forall rest', s = String "]" rest' ->
     content = EmptyString /\ rest = rest' /\
     bracket_token content = mkToken property EmptyString).
Proof.
  intros R content rest. split; [|split].
  - rewrite (tokenize_from _ _ _ _ R). now rewrite bracket_unfold.
  - intros H1 H2 H3 H4. unfold bracket_token. now rewrite H1, H2, H3, H4.
  - intros rest' ->. subst content rest.
    change (String "]" rest') with (EmptyString ++ String "]" rest')%string.
    now rewrite scan_bracket_plain.
Qed.

Lemma bracket_emits_one_token_witness :
  turns 1 ".a[]" [] = Some ([mkToken property "a"], "[]") /\
  tokenize ".a[]" = [mkToken property "a"; mkToken property EmptyString].
Proof.
  split; [reflexivity|].
  exact (proj1 (bracket_emits_one_token ".a[]" 1 [mkToken property "a"] "]"
                  eq_refl)).
Defined.

(** C2 (as stated) fails: the empty bracket group is not skipped, the
    tokenizer emits a Property segment of the empty name for it. *)
Lemma empty_bracket_not_skipped :
  tokenize "[]" = [mkToken property EmptyString] /\
  tokenize "[]" <> tokenize EmptyString.
Proof. split; [reflexivity|discriminate]. Qed.



(** ** Values and the recursive descent *)

Section ValueFacts.
Context {N : JsNumber}.

(** induction on a value, with the hypothesis for every child *)
Lemma JsonValue_induction (P : JsonValue -> Prop) :
  P JNull -> (forall b, P (JBool b)) -> (forall n, P (JNumber n)) ->
  (forall s, P (JString s)) ->
  (forall items, Forall P items -> P (JArray items)) ->
  (forall fields, Forall (fun kv => P (snd kv)) fields -> P (JObject fields)) ->
  P ObjectPrototype -> (forall name, P (Builtin name)) ->
  forall v, P v.
Proof.
  intros Hnull Hbool Hnum Hstr Harr Hobj Hproto Hfun.
  fix IH 1.
  intros [ | b | n | s | items | fields | | name];
    [exact Hnull | apply Hbool | apply Hnum | apply Hstr
     | | | exact Hproto | apply Hfun].
  - apply Harr.
    exact ((fix all (l : list JsonValue) : Forall P l :=
              match l with
              | [] => Forall_nil P
              | x :: r => Forall_cons x (IH x) (all r)
              end) items).
  - apply Hobj.
    exact ((fix all (l : list (string * JsonValue))
              : Forall (fun kv => P (snd kv)) l :=
              match l with
              | [] => Forall_nil _
              | (k, x) :: r =>
                  Forall_cons (P := fun kv => P (snd kv)) (k, x) (IH x) (all r)
              end) fields).
Qed.

Lemma has_get (record : JsonValue) (key : string) :
  has record key = true -> exists v, get record key = Some v.
Proof.
  unfold has, get, prototype_get.
  destruct record as [ | | | | | fields | | ]; try discriminate.
  - destruct (own fields key) as [v|]; [now exists v|].
    destruct (String.eqb key "__proto__"); [now eexists|].
    destruct (string_mem key prototype_functions); [now eexists|discriminate].
  - destruct (String.eqb key "__proto__"); [now eexists|].
    destruct (string_mem key prototype_functions); [now eexists|discriminate].
Qed.

Lemma get_has (record : JsonValue) (key : string) (v : JsonValue) :
  get record key = Some v -> has record key = true.
Proof.
  unfold has, get, prototype_get.
  destruct record as [ | | | | | fields | | ]; try discriminate.
  - destruct (own fields key); [reflexivity|].
    destruct (String.eqb key "__proto__"); [reflexivity|].
    now destruct (string_mem key prototype_functions).
  - destruct (String.eqb key "__proto__"); [reflexivity|].
    now destruct (string_mem key prototype_functions).
Qed.

(** what [collectRecursive] pushes at the node it is called on *)
Lemma push_hit (node : JsonValue) (p : string) (results : list JsonValue) :
  is_object node && negb (isArray node) = true ->
  (if has node p then push_get results node p else results)
  = results ++ hit p node.
Proof.
  intros O. unfold hit, push_get, push. rewrite O. simpl.
  destruct (has node p) eqn:H; [|now rewrite app_nil_r].
  destruct (has_get _ _ H) as [v ->]. reflexivity.
Qed.

Lemma collect_object (fields : list (string * JsonValue)) (p : string)
      (results : list JsonValue) :
  collectRecursive (JObject fields) p results =
  fold_left (fun acc kv => collectRecursive (snd kv) p acc) fields
            (results ++ hit p (JObject fields)).
Proof.
  rewrite <- push_hit by reflexivity.
  cbn [collectRecursive].
  generalize (if has (JObject fields) p
              then push_get results (JObject fields) p else results).
  induction fields as [|[k v] rest IH]; intros acc; [reflexivity|].
  cbn [fold_left snd]. apply IH.
Qed.

Lemma collect_array (items : list JsonValue) (p : string)
      (results : list JsonValue) :
  collectRecursive (JArray items) p results =
  fold_left (fun acc item => collectRecursive item p acc) items results.
Proof.
  cbn [collectRecursive]. revert results.
  induction items as [|v rest IH]; intros acc; [reflexivity|].
  cbn [fold_left]. apply IH.
Qed.

(** the values that the descent pushes, as a traversal in pre-order *)
Lemma collect_preorder (v : JsonValue) (p : string) :
  forall results,
    collectRecursive v p results = results ++ flat_map (hit p) (preorder v).
Proof.
  induction v as [ | b | n | s | items IH | fields IH | | name]
    using JsonValue_induction; intros results;
    try (cbn; now rewrite app_nil_r).
  - rewrite collect_array. cbn [preorder flat_map hit is_object isArray negb andb].
    cbn [app]. revert results.
    induction IH as [|x rest Hx _ IHrest]; intros results;
      cbn [fold_left flat_map]; [now rewrite app_nil_r|].
    rewrite IHrest, Hx, flat_map_app. now rewrite app_assoc.
  - rewrite collect_object. cbn [preorder flat_map].
    generalize (hit p (JObject fields)) as h.
    intros h. rewrite app_assoc. generalize (results ++ h) as acc.
    induction IH as [|[k x] rest Hx _ IHrest]; intros acc;
      cbn [fold_left flat_map snd]; [now rewrite app_nil_r|].
    rewrite IHrest, Hx, flat_map_app. now rewrite app_assoc.
  - cbn [collectRecursive preorder flat_map]. rewrite app_nil_r.
    now apply push_hit.
Qed.

(** C3. A Recursive segment with the name [p] visits the nodes of its
    input in pre-order, the input itself first, and appends, in the order
    of the visit, the value bound to [p] at every object node where [p]
    exists, with every occurrence kept; the query [$..name] on the
    document [{"a":{"name":"x","b":{"name":"y"}}}] returns the strings
    [x] and [y] in this order. *)
Theorem recursive_descent_is_preorder (input : JsonValue) (p : string) :
  (exists below, preorder input = input :: below) /\
  (forall results,
      collectRecursive input p results
      = results ++ flat_map (hit p) (preorder input)) /\
  (forall fuel,
      applyToken fuel [input] (mkToken recursive p)
      = Returned (flat_map (hit p) (preorder input))) /\
  (forall fields v, own fields p = Some v -> hit p (JObject fields) = [v]) /\
  (forall fields,
      own fields p = None -> has ObjectPrototype p = false ->
      hit p (JObject fields) = []) /\
  (forall fuel,
      queryJsonPath fuel nested_names "$..name"
      = Returned [JString "x"; JString "y"]).
Proof.
  split; [|split; [|split; [|split; [|split]]]].
  - destruct input; cbn [preorder]; eexists; reflexivity.
  - apply collect_preorder.
  - intros fuel. unfold applyToken. cbn [apply_inputs apply_input type value].
    now rewrite collect_preorder.
  - intros fields v H. unfold hit. cbn [is_object isArray negb andb has get].
    now rewrite H.
  - intros fields H1 H2. unfold hit. cbn [is_object isArray negb andb has].
    rewrite H1. cbn [has] in H2. now rewrite H2.
  - intros fuel. reflexivity.
Qed.
End ValueFacts.

(** ** Slices *)

Section SliceFacts.
Context {N : JsNumber}.
Local Open Scope Z_scope.








(** a slice with a step that is not positive over a range that is not
    empty: the loop never ends *)
Lemma slice_loop_diverges (items : list JsonValue) (end_ step : Z) (fuel : nat) :
  step <= 0 ->
  forall start results,
    start < end_ ->
    slice_loop fuel items (Some start) (Some end_) (Some step) results
    = OutOfFuel.
Proof.
  intros S. induction fuel as [|fuel IH]; intros start results L;
    cbn [slice_loop js_lt js_add];
    destruct (Z.ltb_spec start end_); try lia; [reflexivity|].
  apply IH. lia.
Qed.





End SliceFacts.

(** ** The evaluator: fuel and failure *)

Section EvaluatorFacts.
Context {N : JsNumber}.












End EvaluatorFacts.

(** ** Slice segments *)



Section SliceSegments.
Context {N : JsNumber}.
Local Open Scope Z_scope.

Lemma applyToken_single (fuel : nat) (input : JsonValue) (token : Token) :
  applyToken fuel [input] token = apply_input fuel token input [].
Proof.
  unfold applyToken. cbn [apply_inputs].
  now destruct (apply_input fuel token input []).
Qed.

Lemma apply_tokens_single (fuel : nat) (results : list JsonValue)
      (token : Token) :
  apply_tokens fuel [token] results = applyToken fuel results token.
Proof.
  cbn [apply_tokens]. now destruct (applyToken fuel results token).
Qed.

Lemma query_root (fuel : nat) (data : JsonValue) (path : string) :
  queryJsonPath fuel data (String "$" path)
  = apply_tokens fuel (tokenize path) [data].
Proof. reflexivity. Qed.

Lemma applyToken_slice (fuel : nat) (items : list JsonValue) (text : string) :
  applyToken fuel [JArray items] (mkToken slice text)
  = slice_loop fuel items (slice_start text)
               (slice_end text (length items)) (slice_step text) [].
Proof. now rewrite applyToken_single. Qed.



End SliceSegments.


(** ** Slices that do not step forward *)

(** C9 fails on the code at the slice [::-1]: the step that is read is -1,
    not zero, and the loop of the slice never ends on an array that is not
    empty. *)
Theorem negative_step_never_ends (fuel : nat) :
  slice_step "::-1" = Some (-1)%Z /\
  applyToken fuel [three] (mkToken slice "::-1") = OutOfFuel /\
  queryJsonPath fuel three "$[::-1]" = OutOfFuel.
Proof.
  assert (H : applyToken fuel [three] (mkToken slice "::-1") = OutOfFuel).
  { unfold three. rewrite applyToken_slice.
    change (slice_start "::-1") with (Some 0%Z).
    change (slice_end "::-1" (length [jnum 1; jnum 2; jnum 3])) with (Some 3%Z).
    change (slice_step "::-1") with (Some (-1)%Z).
    apply slice_loop_diverges; lia. }
  split; [reflexivity|split; [exact H|]].
  rewrite query_root. change (tokenize "[::-1]") with [mkToken slice "::-1"].
  now rewrite apply_tokens_single.
Qed.


(** ** The matcher and the language of a regular expression *)

Lemma append_nil_r (s : string) : (s ++ EmptyString)%string = s.
Proof. induction s as [|c r IH]; cbn; [reflexivity|now rewrite IH]. Qed.

Lemma append_assoc (a b c : string) :
  ((a ++ b) ++ c)%string = (a ++ (b ++ c))%string.
Proof. induction a as [|x r IH]; cbn; [reflexivity|now rewrite IH]. Qed.

Lemma length_append (a b : string) :
  String.length (a ++ b) = (String.length a + String.length b)%nat.
Proof. induction a as [|x r IH]; cbn; [reflexivity|now rewrite IH]. Qed.

Lemma substring_append (a b : string) :
  substring 0 (String.length a) (a ++ b) = a.
Proof. induction a as [|x r IH]; cbn; [now destruct b|now rewrite IH]. Qed.

Lemma consumed_append (a b : string) : consumed (a ++ b) b = a.
Proof.
  unfold consumed. rewrite length_append.
  replace (String.length a + String.length b - String.length b)%nat
    with (String.length a) by lia.
  apply substring_append.
Qed.

Lemma strip_prefix_some (p s r : string) :
  strip_prefix p s = Some r <-> s = (p ++ r)%string.
Proof.
  revert s; induction p as [|a p IH]; intros s; cbn.
  - split; [now intros [= ->]|now intros ->].
  - destruct s as [|b s]; [split; discriminate|].
    destruct (Ascii.eqb_spec a b) as [->|D].
    + rewrite IH. split; [now intros ->|now intros [= ->]].
    + split; [discriminate|intros [= E _]; now elim D].
Qed.

Section MatcherFacts.
Variable A : Type.
Implicit Types (k : string -> option A) (s : string) (cls : ascii -> bool).

Lemma or_else_some (x : option A) (y : unit -> option A) (a : A) :
  or_else x y = Some a -> x = Some a \/ y tt = Some a.
Proof. destruct x; cbn; auto. Qed.

Lemma or_else_left (x : option A) (y : unit -> option A) :
  (exists a, x = Some a) -> exists a, or_else x y = Some a.
Proof. intros [a ->]. now exists a. Qed.

Lemma or_else_right (x : option A) (y : unit -> option A) :
  (exists a, y tt = Some a) -> exists a, or_else x y = Some a.
Proof. intros [a H]. destruct x as [b|]; cbn; [now exists b|now exists a]. Qed.

Lemma greedy_star_sound cls s k a :
  greedy_star cls s k = Some a ->
  exists s1 s2,
    s = (s1 ++ s2)%string /\ string_forallb cls s1 = true /\ k s2 = Some a.
Proof.
  induction s as [|c r IH]; cbn [greedy_star].
  - intros H. now exists EmptyString, EmptyString.
  - destruct (cls c) eqn:C; [|intros H; now exists EmptyString, (String c r)].
    intros H. apply or_else_some in H as [H|H].
    + destruct (IH H) as (s1 & s2 & -> & F & K).
      exists (String c s1), s2. cbn. now rewrite C, F.
    + now exists EmptyString, (String c r).
Qed.

Lemma greedy_star_complete cls s1 s2 k :
  string_forallb cls s1 = true -> (exists a, k s2 = Some a) ->
  exists a, greedy_star cls (s1 ++ s2) k = Some a.
Proof.
  intros F K. induction s1 as [|c r IH]; cbn [String.append greedy_star].
  - destruct s2 as [|c r]; [exact K|]. cbn [greedy_star].
    destruct (cls c); [|exact K]. now apply or_else_right.
  - cbn in F. apply andb_true_iff in F as [C F]. rewrite C.
    apply or_else_left. now apply IH.
Qed.

Lemma lazy_star_sound cls s k a :
  lazy_star cls s k = Some a ->
  exists s1 s2,
    s = (s1 ++ s2)%string /\ string_forallb cls s1 = true /\ k s2 = Some a.
Proof.
  induction s as [|c r IH]; cbn [lazy_star]; intros H;
    apply or_else_some in H as [H|H].
  - now exists EmptyString, EmptyString.
  - discriminate.
  - now exists EmptyString, (String c r).
  - destruct (cls c) eqn:C; [|discriminate].
    destruct (IH H) as (s1 & s2 & -> & F & K).
    exists (String c s1), s2. cbn. now rewrite C, F.
Qed.

Lemma lazy_star_complete cls s1 s2 k :
  string_forallb cls s1 = true -> (exists a, k s2 = Some a) ->
  exists a, lazy_star cls (s1 ++ s2) k = Some a.
Proof.
  intros F K. induction s1 as [|c r IH]; cbn [String.append].
  - destruct s2; cbn [lazy_star]; now apply or_else_left.
  - cbn in F. apply andb_true_iff in F as [C F].
    cbn [lazy_star]. apply or_else_right. rewrite C. now apply IH.
Qed.

Lemma first_branch_sound (branches : list string) s k a :
  first_branch branches s k = Some a ->
  exists b rest,
    In b branches /\ s = (b ++ rest)%string /\ k rest = Some a.
Proof.
  induction branches as [|b bs IH]; cbn [first_branch]; [discriminate|].
  intros H. apply or_else_some in H as [H|H].
  - destruct (strip_prefix b s) as [rest|] eqn:P; [|discriminate].
    apply strip_prefix_some in P. exists b, rest. cbn. auto.
  - destruct (IH H) as (b' & rest & I & E & K). exists b', rest. cbn. auto.
Qed.

Lemma first_branch_complete (branches : list string) (b : string) s2 k :
  In b branches -> (exists a, k s2 = Some a) ->
  exists a, first_branch branches (b ++ s2) k = Some a.
Proof.
  intros I K. induction branches as [|b' bs IH]; [destruct I|].
  cbn [first_branch]. destruct I as [->|I].
  - apply or_else_left.
    now rewrite (proj2 (strip_prefix_some b (b ++ s2) s2) eq_refl).
  - apply or_else_right. now apply IH.
Qed.

(** what the matcher finds is a word of the expression, with its groups *)
Lemma rmatch_sound (r : regex) :
  forall s caps (k : string -> list string -> option A) a,
    rmatch r s caps k = Some a ->
    exists s1 s2 found,
      s = (s1 ++ s2)%string /\ parses r s1 found /\
      k s2 (caps ++ found) = Some a.
Proof.
  induction r as [t|c|cls|cls|cls|branches|r1 IH1|r1 IH1 r2 IH2];
    intros s caps k a; cbn [rmatch parses].
  - destruct (strip_prefix t s) as [rest|] eqn:P; [|discriminate].
    apply strip_prefix_some in P. intros K.
    exists t, rest, []. now rewrite app_nil_r.
  - assert (E : k s caps = Some a ->
                exists s1 s2 found,
                  s = (s1 ++ s2)%string /\
                  ((s1 = EmptyString \/ s1 = String c EmptyString)
                   /\ found = []) /\
                  k s2 (caps ++ found) = Some a).
    { intros K. exists EmptyString, s, []. rewrite app_nil_r. auto. }
    destruct s as [|d rest]; [exact E|].
    destruct (Ascii.eqb_spec c d) as [<-|_]; [|exact E].
    intros H. apply or_else_some in H as [H|H]; [|exact (E H)].
    exists (String c EmptyString), rest, []. rewrite app_nil_r. auto.
  - intros H. apply greedy_star_sound in H as (s1 & s2 & -> & F & K).
    exists s1, s2, []. now rewrite app_nil_r.
  - destruct s as [|c rest]; [discriminate|].
    destruct (cls c) eqn:C; [|discriminate].
    intros H. apply greedy_star_sound in H as (s1 & s2 & -> & F & K).
    exists (String c s1), s2, []. rewrite app_nil_r. cbn. rewrite C, F.
    repeat split; auto; discriminate.
  - destruct s as [|c rest]; [discriminate|].
    destruct (cls c) eqn:C; [|discriminate].
    intros H. apply lazy_star_sound in H as (s1 & s2 & -> & F & K).
    exists (String c s1), s2, []. rewrite app_nil_r. cbn. rewrite C, F.
    repeat split; auto; discriminate.
  - intros H. apply first_branch_sound in H as (b & rest & I & -> & K).
    exists b, rest, []. now rewrite app_nil_r.
  - intros H. apply IH1 in H as (s1 & s2 & inner & -> & P & K).
    rewrite consumed_append, <- app_assoc in K.
    exists s1, s2, (inner ++ [s1]). eauto.
  - intros H. apply IH1 in H as (s1 & rest & c1 & -> & P1 & H).
    apply IH2 in H as (s2 & s3 & c2 & -> & P2 & K).
    exists (s1 ++ s2)%string, s3, (c1 ++ c2).
    rewrite append_assoc, app_assoc. split; [reflexivity|].
    split; [|exact K]. exists s1, s2, c1, c2. auto.
Qed.

(** the matcher finds a word of the expression when there is one *)
Lemma rmatch_complete (r : regex) :
  forall s1 s2 found caps (k : string -> list string -> option A),
    parses r s1 found ->
    (forall caps', exists a, k s2 caps' = Some a) ->
    exists a, rmatch r (s1 ++ s2) caps k = Some a.
Proof.
  induction r as [t|c|cls|cls|cls|branches|r1 IH1|r1 IH1 r2 IH2];
    intros s1 s2 found caps k; cbn [rmatch parses].
  - intros [-> _] K.
    now rewrite (proj2 (strip_prefix_some t (t ++ s2) s2) eq_refl).
  - intros [[-> | ->] _] K; cbn [String.append].
    + destruct s2 as [|d rest]; [apply K|].
      destruct (Ascii.eqb c d); [apply or_else_right|]; apply K.
    + rewrite Ascii.eqb_refl. apply or_else_left, K.
  - intros [F _] K. now apply greedy_star_complete.
  - intros [[NE F] _] K. destruct s1 as [|c rest]; [now elim NE|].
    cbn in F. apply andb_true_iff in F as [C F]. cbn [String.append].
    rewrite C. now apply greedy_star_complete.
  - intros [[NE F] _] K. destruct s1 as [|c rest]; [now elim NE|].
    cbn in F. apply andb_true_iff in F as [C F]. cbn [String.append].
    rewrite C. now apply lazy_star_complete.
  - intros [I _] K. now apply first_branch_complete.
  - intros (inner & P & _) K. apply (IH1 _ _ _ _ _ P). intros caps'. apply K.
  - intros (a & b & c1 & c2 & -> & _ & P1 & P2) K. rewrite append_assoc.
    apply (IH1 _ _ _ _ _ P1). intros caps'. now apply (IH2 _ _ _ _ _ P2).
Qed.
End MatcherFacts.

Lemma match_sound (r : regex) (s : string) (caps : list string) :
  match_anchored r s = Some caps -> parses r s caps.
Proof.
  unfold match_anchored. intros H.
  apply rmatch_sound in H as (s1 & s2 & found & -> & P & K).
  destruct s2; [|discriminate]. injection K as <-.
  now rewrite append_nil_r.
Qed.

Lemma match_complete (r : regex) (s : string) :
  lang r s -> exists caps, match_anchored r s = Some caps.
Proof.
  intros [found P]. unfold match_anchored.
  rewrite <- (append_nil_r s).
  apply (rmatch_complete _ r s EmptyString found [] _ P).
  intros caps'. now exists caps'.
Qed.

(** the matcher fails on the strings outside the language, and on no other *)
Lemma no_match_iff (r : regex) (s : string) :
  match_anchored r s = None <-> ~ lang r s.
Proof.
  split.
  - intros H L. apply match_complete in L as [caps L]. congruence.
  - intros NL. destruct (match_anchored r s) as [caps|] eqn:M; [|reflexivity].
    elim NL. exists caps. now apply match_sound.
Qed.

(** the groups of a predicate source that the filter grammar accepts *)
Lemma filter_match_shape (source : string) (caps : list string) :
  match_anchored filter_regex source = Some caps ->
  exists field op rawValue,
    caps = [field; op; rawValue] /\
    (field <> EmptyString /\ string_forallb is_word field = true) /\
    In op filter_operators /\
    (rawValue <> EmptyString /\ string_forallb is_dot rawValue = true).
Proof.
  intros H. apply match_sound in H. unfold filter_regex in H. cbn in H.
  destruct H as (? & ? & ? & ? & _ & -> & [_ ->] & H).
  destruct H as (? & ? & ? & ? & _ & -> & [_ ->] & H).
  destruct H as (? & ? & ? & ? & _ & -> & [_ ->] & H).
  destruct H as (field & ? & ? & ? & _ & -> & (? & [F ->] & ->) & H).
  destruct H as (? & ? & ? & ? & _ & -> & [_ ->] & H).
  destruct H as (op & ? & ? & ? & _ & -> & (? & [O ->] & ->) & H).
  destruct H as (? & ? & ? & ? & _ & -> & [_ ->] & H).
  destruct H as (raw & ? & ? & ? & _ & -> & (? & [R ->] & ->) & H).
  destruct H as (? & ? & ? & ? & _ & -> & [_ ->] & [_ ->]).
  exists field, op, raw. cbn. auto.
Qed.

(** ** Filters *)

Section FilterFacts.
Context {N : JsNumber}.

Lemma strict_equal_same (fieldVal : JsonValue) (literal : Comparable) :
  strict_equal fieldVal literal = true <-> same_value fieldVal literal.
Proof.
  destruct fieldVal, literal; cbn; try (split; [discriminate|tauto]);
    try tauto.
  - apply Bool.eqb_true_iff.
  - apply String.eqb_eq.
Qed.

Lemma both_numbers_true (op : number -> number -> bool)
      (fieldVal : JsonValue) (literal : Comparable) :
  both_numbers op fieldVal literal = true <->
  exists a b, fieldVal = JNumber a /\ literal = CNumber b /\ op a b = true.
Proof.
  split.
  - destruct fieldVal, literal; cbn; try discriminate. intros H.
    now exists n, n0.
  - now intros (a & b & -> & -> & H).
Qed.

(** the filter of a candidate object, once its source is read *)
Lemma evaluateFilter_read (item fieldVal : JsonValue)
      (source field op rawValue : string) :
  match_anchored filter_regex source = Some [field; op; rawValue] ->
  is_object item = true -> isArray item = false ->
  get item field = Some fieldVal ->
  evaluateFilter item source = compare op fieldVal (decode_literal rawValue).
Proof.
  intros M O A G. unfold evaluateFilter. now rewrite M, O, A, G.
Qed.

(** C5. For a candidate object, a field value and the decoded literal of a
    predicate: [==] holds exactly when the field value and the literal are
    of the same variant and of the same value, [!=] exactly when they are
    not, so that a Number never equals a String; [>], [<], [>=] and [<=]
    hold exactly when both are Numbers that compare so, and are false in
    every other case. *)
Theorem filter_comparison (item fieldVal : JsonValue)
        (source field op rawValue : string) :
  match_anchored filter_regex source = Some [field; op; rawValue] ->
  is_object item = true -> isArray item = false ->
  get item field = Some fieldVal ->
  let literal := decode_literal rawValue in
  let holds := evaluateFilter item source = true in
  let numbers (cmp : number -> number -> bool) :=
    exists a b,
      fieldVal = JNumber a /\ literal = CNumber b /\ cmp a b = true in
  In op filter_operators /\
  (op = "==" -> (holds <-> same_value fieldVal literal)) /\
  (op = "!=" -> (holds <-> ~ same_value fieldVal literal)) /\
  (forall n s, ~ same_value (JNumber n) (CString s)) /\
  (op = ">" -> (holds <-> numbers num_gt)) /\
  (op = "<" -> (holds <-> numbers num_lt)) /\
  (op = ">=" -> (holds <-> numbers num_ge)) /\
  (op = "<=" -> (holds <-> numbers num_le)).
Proof.
  intros M O A G literal holds numbers. subst holds.
  rewrite (evaluateFilter_read _ _ _ _ _ _ M O A G). fold literal.
  split.
  { apply filter_match_shape in M as (f & o & r & [= -> -> ->] & _ & I & _).
    exact I. }
  repeat match goal with |- _ /\ _ => split end;
    try (intros ->; unfold compare; cbn [String.eqb Ascii.eqb Bool.eqb];
         unfold numbers; now rewrite ?both_numbers_true).
  - intros ->. unfold compare. cbn [String.eqb Ascii.eqb Bool.eqb].
    apply strict_equal_same.
  - intros ->. unfold compare. cbn [String.eqb Ascii.eqb Bool.eqb].
    rewrite <- strict_equal_same.
    destruct (strict_equal fieldVal literal); cbn; split; congruence.
  - intros n s H. exact H.
Qed.

(** C6. A predicate source outside the filter grammar is false of every
    candidate: the Filter segment contributes nothing for an array, and
    nothing is raised. *)
Theorem unreadable_filter_selects_nothing (source : string) :
  ~ filter_grammar source ->
  (forall item, evaluateFilter item source = false) /\
  (forall fuel items,
      applyToken fuel [JArray items] (mkToken filter source) = Returned []) /\
  (forall fuel input results,
      apply_input fuel (mkToken filter source) input results
      = Returned results).
Proof.
  intros G. apply no_match_iff in G.
  assert (E : forall item, evaluateFilter item source = false)
    by (intros item; unfold evaluateFilter; now rewrite G).
  assert (F : forall items,
             List.filter (fun item => evaluateFilter item source) items = []).
  { induction items as [|x r IH]; cbn; [reflexivity|now rewrite E]. }
  split; [exact E|split].
  - intros fuel items. rewrite applyToken_single.
    unfold apply_input. cbn [type value]. now rewrite F.
  - intros fuel input results. unfold apply_input. cbn [type value].
    destruct input; try reflexivity. now rewrite F, app_nil_r.
Qed.

(** C8. Bracket content made of a minus sign and digits fails the test of
    the digits, so that it is no Index segment: the tokenizer emits the
    Property segment of this name, and on an array this segment
    contributes nothing. *)
Theorem negative_index_is_property
        (query : string) (n : nat) (tokens : list Token) (digits rest : string) :
  string_forallb is_digit digits = true ->
  turns n query []
  = Some (tokens, String "[" (String "-" digits ++ String "]" rest))%string ->
  let name := String "-" digits in
  all_digits name = false /\
  tokenize query = tokens ++ mkToken property name :: tokenize rest /\
  (forall fuel items,
      applyToken fuel [JArray items] (mkToken property name) = Returned []) /\
  (forall fuel items results,
      apply_input fuel (mkToken property name) (JArray items) results
      = Returned results).
Proof.
  intros D R name.
  assert (B : string_existsb is_bracket name = false).
  { cbn. apply (forallb_existsb_false is_digit); [|exact D].
    intros c H. now apply digit_facts. }
  assert (T : bracket_token name = mkToken property name).
  { unfold bracket_token, name, startsWith, all_digits, includes, strip_quotes.
    cbn.
    rewrite (forallb_existsb_false is_digit (Ascii.eqb ":") digits);
      [|intros c H; now apply digit_facts|exact D].
    rewrite (forallb_filter_id is_digit _ digits);
      [reflexivity| |exact D].
    intros c H. apply digit_facts in H as (_ & _ & ->). reflexivity. }
  split; [reflexivity|split; [|split]].
  - rewrite (tokenize_from _ _ _ _ R), bracket_unfold.
    fold name. rewrite (scan_bracket_plain name rest B). cbn [fst snd].
    now rewrite T.
  - intros fuel items. now rewrite applyToken_single.
  - reflexivity.
Qed.
End FilterFacts.

Lemma filter_comparison_witness :
  match_anchored filter_regex "(@.age>21)" = Some ["age"; ">"; "21"] /\
  evaluateFilter ann "(@.age>21)" = true /\
  evaluateFilter bo "(@.age>21)" = false.
Proof.
  split; [reflexivity|split; [|reflexivity]].
  apply (proj1 (proj2 (proj2 (proj2 (proj2
           (filter_comparison (N := ZNumber) ann (jnum 30)
              "(@.age>21)" "age" ">" "21" eq_refl eq_refl eq_refl eq_refl)))))
           eq_refl).
  exists 30%Z, 21%Z. repeat split.
Defined.

Lemma unreadable_filter_selects_nothing_witness :
  ~ filter_grammar "(age>21)" /\
  applyToken 0 [JArray [ann; bo]] (mkToken filter "(age>21)") = Returned [].
Proof.
  assert (G : ~ filter_grammar "(age>21)") by (apply no_match_iff; reflexivity).
  split; [exact G|].
  apply (unreadable_filter_selects_nothing (N := ZNumber) "(age>21)" G).
Defined.

Lemma negative_index_is_property_witness :
  tokenize ".a[-1]"
  = [mkToken property "a"; mkToken property "-1"] /\
  applyToken 0 [five] (mkToken property "-1") = Returned [].
Proof.
  pose proof (negative_index_is_property (N := ZNumber) ".a[-1]" 1
                [mkToken property "a"] "1" EmptyString eq_refl eq_refl) as H.
  split; [exact (proj1 (proj2 H))|].
  exact (proj1 (proj2 (proj2 H)) 0%nat [jnum 10; jnum 20; jnum 30; jnum 40; jnum 50]).
Defined.

(** ** The origin of the results *)

Section OriginFacts.
Context {N : JsNumber}.

Lemma flat_map_snd (f : JsonValue -> list JsonValue)
      (fields : list (string * JsonValue)) :
  flat_map (fun kv => f (snd kv)) fields = flat_map f (map snd fields).
Proof.
  induction fields as [|kv r IH]; cbn; [reflexivity|now rewrite IH].
Qed.

Lemma preorder_unfold (v : JsonValue) :
  preorder v = v :: flat_map preorder (children v).
Proof. destruct v; cbn [preorder children]; now rewrite ?flat_map_snd. Qed.

Lemma present_refl (v : JsonValue) : present v v.
Proof. unfold present. rewrite preorder_unfold. now left. Qed.

(** the nodes of a node of a document are nodes of the document *)
Lemma present_trans (v node d : JsonValue) :
  present v node -> present node d -> present v d.
Proof.
  unfold present. intros V. revert d.
  assert (L : forall l, Forall (fun d => In node (preorder d) -> In v (preorder d)) l ->
              In node (flat_map preorder l) -> In v (flat_map preorder l)).
  { intros l F H. apply in_flat_map in H as (c & C & H).
    apply in_flat_map. exists c. split; [exact C|].
    rewrite Forall_forall in F. now apply F. }
  induction d as [ | b | n | s | items IH | fields IH | | name]
    using JsonValue_induction;
    intros H; rewrite preorder_unfold in H; cbn [children flat_map In] in H;
    (destruct H as [E|H]; [now subst node|]); try (now destruct H);
    rewrite preorder_unfold; right; cbn [children].
  - now apply L.
  - apply L; [|exact H]. clear H.
    induction IH as [|kv r H _ IHr]; cbn [map]; constructor; assumption.
Qed.

Lemma present_child (v node d : JsonValue) :
  In v (children node) -> present node d -> present v d.
Proof.
  intros C. apply present_trans. unfold present. rewrite preorder_unfold.
  right. apply in_flat_map. exists v. split; [exact C|apply present_refl].
Qed.

Lemma own_child (fields : list (string * JsonValue)) (key : string)
      (v : JsonValue) :
  own fields key = Some v -> In v (map snd fields).
Proof.
  induction fields as [|[k x] r IH]; cbn; [discriminate|].
  destruct (String.eqb k key); [intros [= ->]; now left|auto].
Qed.

Lemma get_child (node : JsonValue) (key : string) (v : JsonValue) :
  inherited key = false -> get node key = Some v -> In v (children node).
Proof.
  unfold inherited. cbn [has]. intros I.
  destruct node as [ | | | | | fields | | ]; cbn [get children];
    try discriminate.
  - destruct (own fields key) eqn:O; [intros [= <-]; now apply own_child in O|].
    unfold prototype_get. apply orb_false_iff in I as [-> ->]. discriminate.
  - unfold prototype_get. apply orb_false_iff in I as [-> ->]. discriminate.
Qed.

Lemma hit_child (node : JsonValue) (p : string) (v : JsonValue) :
  inherited p = false -> In v (hit p node) -> In v (children node).
Proof.
  intros I. unfold hit.
  destruct (is_object node && negb (isArray node) && has node p);
    [|intros []].
  destruct (get node p) eqn:G; [|intros []].
  intros [<-|[]]. now apply (get_child _ p).
Qed.

Lemma push_at_from (results items : list JsonValue) (i : Z) (v : JsonValue) :
  In v (push_at results items i) -> In v results \/ In v items.
Proof.
  unfold push_at, push. destruct (nth_error items (Z.to_nat i)) eqn:E; [|auto].
  intros H. apply in_app_or in H as [H|[<-|[]]]; [auto|].
  right. now apply nth_error_In in E.
Qed.

Lemma slice_loop_from (items : list JsonValue) (end_ step : option Z)
      (fuel : nat) :
  forall si results out v,
    slice_loop fuel items si end_ step results = Returned out ->
    In v out -> In v results \/ In v items.
Proof.
  induction fuel as [|fuel IH]; intros si results out v; cbn [slice_loop];
    destruct (js_lt si end_); try discriminate;
    try (intros [= <-]; now left).
  intros H V. destruct (IH _ _ _ _ H V) as [R|I]; [|now right].
  destruct si as [i|]; [|now left].
  destruct (in_bounds items i); [|now left]. now apply push_at_from in R.
Qed.

Lemma apply_input_present (d : JsonValue) (fuel : nat) (token : Token)
      (input : JsonValue) (results out : list JsonValue) :
  names_own_members token = true ->
  present input d -> Forall (fun v => present v d) results ->
  apply_input fuel token input results = Returned out ->
  Forall (fun v => present v d) out.
Proof.
  intros T I R. rewrite Forall_forall in R.
  assert (C : forall v, In v (children input) -> present v d)
    by (intros v V; now apply (present_child v input)).
  unfold apply_input, names_own_members in *.
  destruct (type token).
  - apply negb_true_iff in T.
    destruct (is_object input && negb (isArray input));
      [|intros [= <-]; now apply Forall_forall].
    destruct (get input (value token)) as [val|] eqn:G;
      intros [= <-]; apply Forall_forall; [|exact R].
    intros v V. apply in_app_or in V as [V|[<-|[]]]; [auto|].
    apply C. now apply (get_child _ (value token)).
  - intros H. apply Forall_forall. intros v V.
    destruct input; try (injection H as <-; now auto).
    destruct (parseInt (value token)); [|injection H as <-; now auto].
    destruct (in_bounds items z); injection H as <-; [|now auto].
    apply push_at_from in V as [V|V]; auto.
  - intros H. apply Forall_forall. intros v V.
    destruct input; cbn [is_object values] in H; injection H as <-;
      rewrite ?app_nil_r in V; auto;
      apply in_app_or in V as [V|V]; auto.
  - apply negb_true_iff in T. intros [= <-]. apply Forall_forall.
    intros v V. rewrite collect_preorder in V.
    apply in_app_or in V as [V|V]; [auto|].
    apply in_flat_map in V as (node & P & V).
    apply (present_child v node); [now apply (hit_child node (value token))|].
    now apply (present_trans node input).
  - intros H. apply Forall_forall. intros v V.
    destruct input; injection H as <-; auto.
    apply in_app_or in V as [V|V]; [auto|].
    apply filter_In in V as [V _]. auto.
  - intros H. apply Forall_forall. intros v V.
    destruct input; try (injection H as <-; now auto).
    destruct (slice_loop_from _ _ _ _ _ _ _ v H V); auto.
Qed.

Lemma apply_inputs_present (d : JsonValue) (fuel : nat) (token : Token)
      (inputs : list JsonValue) :
  names_own_members token = true ->
  Forall (fun v => present v d) inputs ->
  forall results out,
    Forall (fun v => present v d) results ->
    apply_inputs fuel token inputs results = Returned out ->
    Forall (fun v => present v d) out.
Proof.
  intros T I. induction I as [|input rest P _ IH]; intros results out R;
    cbn [apply_inputs]; [now intros [= <-]|].
  destruct (apply_input fuel token input results) as [r| |] eqn:E;
    try discriminate.
  apply IH. exact (apply_input_present d _ _ _ _ _ T P R E).
Qed.

Lemma apply_tokens_present (d : JsonValue) (fuel : nat) (tokens : list Token) :
  forallb names_own_members tokens = true ->
  forall results out,
    Forall (fun v => present v d) results ->
    apply_tokens fuel tokens results = Returned out ->
    Forall (fun v => present v d) out.
Proof.
  induction tokens as [|token rest IH]; intros T results out R;
    cbn [apply_tokens]; [now intros [= <-]|].
  cbn [forallb] in T. apply andb_true_iff in T as [T1 T2].
  destruct (applyToken fuel results token) as [r| |] eqn:E; try discriminate.
  apply (IH T2).
  exact (apply_inputs_present d _ _ _ T1 R [] r (Forall_nil _) E).
Qed.

(** The results of a query that names no inherited member occur in the
    document, after every segment. *)
Lemma results_occur_in_document (d : JsonValue) (tokens : list Token)
      (fuel : nat) (out : list JsonValue) :
  forallb names_own_members tokens = true ->
  apply_tokens fuel tokens [d] = Returned out ->
  Forall (fun v => present v d) out.
Proof.
  intros T. apply (apply_tokens_present d _ _ T).
  constructor; [apply present_refl|constructor].
Qed.

(** the nodes of a document that [JSON.parse] built are no run time values *)
Lemma present_json (d v : JsonValue) :
  is_json d = true -> present v d -> runtime_value v = false.
Proof.
  unfold is_json, present. rewrite forallb_forall. intros J P.
  now apply negb_true_iff, J.
Qed.

(** C7 fails on the code at the query [$.constructor] of the empty object:
    the result is a member of [Object.prototype], which occurs nowhere in
    the document. *)
Theorem inherited_member_is_returned (fuel : nat) :
  is_json (JObject []) = true /\
  tokenize ".constructor" = [mkToken property "constructor"] /\
  applyToken fuel [JObject []] (mkToken property "constructor")
  = Returned [Builtin "constructor"] /\
  queryJsonPath fuel (JObject []) "$.constructor"
  = Returned [Builtin "constructor"] /\
  ~ present (Builtin "constructor") (JObject []).
Proof.
  repeat match goal with |- _ /\ _ => split end; try reflexivity.
  unfold present. cbn. intros [H|[]]. discriminate.
Qed.
End OriginFacts.

(** ** Examples of the specification *)

Example root_query {N : JsNumber} (d : JsonValue) (fuel : nat) :
  queryJsonPath fuel d "$" = Returned [d].
Proof. reflexivity. Qed.

Example adults (fuel : nat) :
  queryJsonPath fuel users "$.users[?(@.age>21)]" = Returned [ann].
Proof. reflexivity. Qed.

Example recursive_inherited_name (fuel : nat) :
  queryJsonPath fuel three "$..toString" = Returned [] /\
  queryJsonPath fuel ann "$..toString" = Returned [Builtin "toString"].
Proof. split; reflexivity. Qed.

Example empty_bracket_query (fuel : nat) :
  queryJsonPath fuel ann "$[]" = Returned [] /\
  queryJsonPath fuel ann "$" = Returned [ann].
Proof. split; reflexivity. Qed.

(** * Further properties *)

(** ** The tokenizer: names, stray characters, quoted keys *)

Lemma scan_name_stop (name rest : string) :
  string_forallb name_char name = true -> boundary rest = true ->
  scan_name (name ++ rest) = (name, rest).
Proof.
  intros F B. induction name as [|c r IH]; cbn [String.append].
  - destruct rest as [|c r]; [reflexivity|]. cbn [scan_name].
    unfold boundary, name_char in B. apply negb_true_iff in B.
    apply negb_false_iff in B. now rewrite B.
  - cbn in F. apply andb_true_iff in F as [C F]. cbn [scan_name].
    unfold name_char in C. apply negb_true_iff in C. rewrite C.
    now rewrite (IH F).
Qed.

Lemma tokenize_dot_name (name rest : string) :
  plain_name name = true -> boundary rest = true ->
  tokenize (String "." (name ++ rest))
  = mkToken property name :: tokenize rest.
Proof.
  intros P B. rewrite tokenize_unfold. cbn [tokenize_step].
  rewrite Ascii.eqb_refl.
  destruct name as [|c r]; [discriminate|]. cbn [plain_name] in P.
  apply andb_true_iff in P as [S F]. apply negb_true_iff in S.
  pose proof F as F'. cbn in F'. apply andb_true_iff in F' as [C _].
  unfold name_char in C. apply negb_true_iff, orb_false_iff in C as [C _].
  cbn [String.append]. rewrite C, S.
  change (String c (r ++ rest)) with (String c r ++ rest)%string.
  now rewrite (scan_name_stop _ _ F B).
Qed.

Lemma boundary_dotted (names : list string) : boundary (dotted names) = true.
Proof. now destruct names. Qed.

(** the tokens of a path of plain names *)
Lemma tokenize_names (names : list string) (rest : string) :
  forallb plain_name names = true -> boundary rest = true ->
  tokenize (dotted names ++ rest)
  = map (mkToken property) names ++ tokenize rest.
Proof.
  intros H B. induction names as [|n more IH]; [reflexivity|].
  cbn [forallb dotted map] in *. apply andb_true_iff in H as [P H].
  cbn [String.append]. rewrite append_assoc.
  rewrite (tokenize_dot_name n _ P).
  - cbn [app]. now rewrite (IH H).
  - destruct more; [exact B|reflexivity].
Qed.

(** X1. A path of plain names, each after a dot, is read as the Property
    segments of these names, in their order, and the scan goes on with what
    follows the path. *)
Theorem tokenize_dotted (names : list string) (rest : string) :
  forallb plain_name names = true -> boundary rest = true ->
  tokenize (dotted names ++ rest)
  = map (mkToken property) names ++ tokenize rest /\
  tokenize (dotted names) = map (mkToken property) names.
Proof.
  intros P B. split; [now apply tokenize_names|].
  rewrite <- (append_nil_r (dotted names)).
  rewrite (tokenize_names names EmptyString P eq_refl).
  apply app_nil_r.
Qed.

Lemma tokenize_dotted_witness :
  tokenize ".store.book[0]"
  = [mkToken property "store"; mkToken property "book"; mkToken index "0"].
Proof.
  exact (proj1 (tokenize_dotted ["store"; "book"] "[0]" eq_refl eq_refl)).
Defined.

Lemma tokenize_skip (c : ascii) (rest : string) :
  name_char c = true -> tokenize (String c rest) = tokenize rest.
Proof.
  intros C. unfold name_char in C.
  apply negb_true_iff, orb_false_iff in C as [C1 C2].
  rewrite tokenize_unfold. cbn [tokenize_step]. now rewrite C1, C2.
Qed.

(** X2. A path without a dot and without an opening bracket holds no
    segment: every character of it is skipped, and the query of the root
    marker followed by such a path returns the document itself. *)
Theorem stray_characters_are_skipped {N : JsNumber} (path : string) :
  string_forallb name_char path = true ->
  tokenize path = [] /\
  forall fuel (d : JsonValue),
    queryJsonPath fuel d (String "$" path) = Returned [d].
Proof.
  intros F.
  assert (T : tokenize path = []).
  { induction path as [|c r IH]; [reflexivity|].
    cbn in F. apply andb_true_iff in F as [C F].
    now rewrite (tokenize_skip _ _ C), (IH F). }
  split; [exact T|]. intros fuel d. now rewrite query_root, T.
Qed.

Lemma stray_characters_are_skipped_witness :
  queryJsonPath 0 five "$store" = Returned [five].
Proof.
  exact (proj2 (stray_characters_are_skipped (N := ZNumber) "store" eq_refl)
           0%nat five).
Defined.

(** X3. Two dots read the name that follows, up to the next dot or opening
    bracket, as a Recursive segment: the name may be empty, and a star
    after two dots is a name, not a wildcard. *)
Theorem tokenize_recursive_name (name rest : string) :
  string_forallb name_char name = true -> boundary rest = true ->
  tokenize (String "." (String "." (name ++ rest)))
  = mkToken recursive name :: tokenize rest.
Proof.
  intros F B. rewrite tokenize_unfold. cbn [tokenize_step].
  rewrite !Ascii.eqb_refl. now rewrite (scan_name_stop _ _ F B).
Qed.

Lemma tokenize_recursive_name_witness :
  tokenize "..*.a" = [mkToken recursive "*"; mkToken property "a"] /\
  tokenize ".." = [mkToken recursive EmptyString].
Proof.
  split.
  - exact (tokenize_recursive_name "*" ".a" eq_refl eq_refl).
  - exact (tokenize_recursive_name EmptyString EmptyString eq_refl eq_refl).
Defined.

Lemma existsb_append (p : ascii -> bool) (a b : string) :
  string_existsb p (a ++ b) = string_existsb p a || string_existsb p b.
Proof.
  induction a as [|c r IH]; cbn; [reflexivity|].
  now rewrite IH, orb_assoc.
Qed.

Lemma filter_append (p : ascii -> bool) (a b : string) :
  string_filter p (a ++ b) = (string_filter p a ++ string_filter p b)%string.
Proof.
  induction a as [|c r IH]; cbn; [reflexivity|].
  destruct (p c); cbn; now rewrite IH.
Qed.

Lemma quote_facts (q : ascii) :
  is_quote q = true ->
  is_bracket q = false /\ Ascii.eqb ":" q = false /\ is_digit q = false /\
  Ascii.eqb "?" q = false /\ Ascii.eqb q "*" = false.
Proof.
  unfold is_quote. intros H. apply orb_true_iff in H as [H|H];
    apply Ascii.eqb_eq in H; subst q; repeat split; reflexivity.
Qed.

(** X4. A bracket group that holds a key between two quote characters is
    read as the Property segment of the key without its quote characters,
    when the key holds no bracket and no colon: also for a key of digits,
    for the star and for a key with dots or spaces. *)
Theorem tokenize_quoted_key (q : ascii) (key rest : string) :
  is_quote q = true ->
  string_existsb is_bracket key = false ->
  includes key ":"%char = false ->
  tokenize (String "[" (String q (key ++ String q (String "]" rest))))
  = mkToken property (strip_quotes key) :: tokenize rest.
Proof.
  intros Q B C.
  destruct (quote_facts q Q) as (Qb & Qc & Qd & Qq & Qs).
  set (content := String q (key ++ String q EmptyString)).
  assert (E : String q (key ++ String q (String "]" rest))
              = (content ++ String "]" rest)%string).
  { unfold content. cbn [String.append]. now rewrite append_assoc. }
  assert (Bc : string_existsb is_bracket content = false).
  { unfold content. cbn [string_existsb]. rewrite Qb, existsb_append, B.
    cbn. now rewrite Qb. }
  rewrite E, bracket_unfold, (scan_bracket_plain content rest Bc).
  cbn [fst snd]. f_equal. unfold bracket_token.
  assert (S : String.eqb content "*" = false).
  { unfold content. cbn [String.eqb]. rewrite Qs. reflexivity. }
  assert (F : startsWith content "?" = false).
  { unfold content, startsWith. cbn [strip_prefix]. now rewrite Qq. }
  assert (I : includes content ":" = false).
  { unfold content, includes in *. cbn [string_existsb].
    rewrite Qc, existsb_append, C. cbn [string_existsb orb]. now rewrite Qc. }
  assert (D : all_digits content = false).
  { unfold content, all_digits. cbn [truthy_string string_forallb].
    now rewrite Qd. }
  rewrite S, F, I, D. f_equal.
  unfold content, strip_quotes. cbn [string_filter]. rewrite Q. cbn [negb].
  rewrite filter_append. cbn [string_filter]. rewrite Q. cbn [negb].
  now rewrite append_nil_r.
Qed.

Lemma tokenize_quoted_key_witness :
  tokenize "['first.name'].x"
  = [mkToken property "first.name"; mkToken property "x"] /\
  tokenize "['0']" = [mkToken property "0"].
Proof.
  split.
  - exact (tokenize_quoted_key "'" "first.name" ".x" eq_refl eq_refl eq_refl).
  - exact (tokenize_quoted_key "'" "0" EmptyString eq_refl eq_refl eq_refl).
Defined.

(** ** The tokens that the tokenizer emits *)

Lemma digits_head (s : string) :
  all_digits s = true ->
  exists c r, s = String c r /\ is_digit c = true /\
              string_forallb is_digit r = true.
Proof.
  unfold all_digits. destruct s as [|c r]; [discriminate|]. cbn.
  intros H. apply andb_true_iff in H as [C R]. now exists c, r.
Qed.

Lemma digit_more_facts (c : ascii) :
  is_digit c = true ->
  is_space c = false /\ Ascii.eqb c "-" = false /\ Ascii.eqb c "+" = false /\
  Ascii.eqb c "*" = false /\ Ascii.eqb "?" c = false /\
  (0 <= digit_value c)%Z.
Proof.
  destruct c as [[] [] [] [] [] [] [] []]; vm_compute; intuition congruence.
Qed.

Lemma take_while_all (p : ascii -> bool) (s : string) :
  string_forallb p s = true -> take_while p s = s.
Proof.
  induction s as [|c r IH]; cbn; [reflexivity|]. intros H.
  apply andb_true_iff in H as [C R]. now rewrite C, (IH R).
Qed.

Lemma decimal_value_nonneg (s : string) :
  string_forallb is_digit s = true ->
  forall acc, (0 <= acc)%Z -> (0 <= decimal_value acc s)%Z.
Proof.
  induction s as [|c r IH]; cbn [decimal_value string_forallb]; [auto|].
  intros H acc A. apply andb_true_iff in H as [C R].
  apply (IH R). destruct (digit_more_facts c C) as (_ & _ & _ & _ & _ & D). lia.
Qed.

(** [parseInt] of a string of digits is its decimal value *)
Lemma parseInt_digits (s : string) :
  all_digits s = true ->
  parseInt s = Some (decimal_value 0 s) /\ (0 <= decimal_value 0 s)%Z.
Proof.
  intros D. destruct (digits_head s D) as (c & r & -> & C & R).
  destruct (digit_more_facts c C) as (Sp & Mi & Pl & _).
  assert (F : string_forallb is_digit (String c r) = true)
    by (cbn; now rewrite C, R).
  split; [|now apply decimal_value_nonneg].
  unfold parseInt. cbn [drop_while]. rewrite Sp, Mi, Pl.
  rewrite (take_while_all _ _ F). cbn [truthy_string].
  f_equal. lia.
Qed.

Lemma bracket_token_ok (content : string) : token_ok (bracket_token content) = true.
Proof.
  unfold bracket_token.
  destruct (String.eqb content "*"); [reflexivity|].
  destruct (startsWith content "?"); [reflexivity|].
  destruct (includes content ":") eqn:I; [exact I|].
  destruct (all_digits content) eqn:D; [exact D|reflexivity].
Qed.

Lemma tokenize_step_ok (expr rest : string) (pushed : list Token) :
  tokenize_step expr = Some (pushed, rest) ->
  Forall (fun t => token_ok t = true) pushed.
Proof.
  destruct expr as [|c r]; cbn [tokenize_step]; [discriminate|].
  destruct (Ascii.eqb c ".").
  - destruct r as [|d r2]; [intros [= <- _]; constructor|].
    destruct (Ascii.eqb d ".").
    + destruct (scan_name r2). intros [= <- _]. now repeat constructor.
    + destruct (Ascii.eqb d "*"); [intros [= <- _]; now repeat constructor|].
      destruct (scan_name (String d r2)) as [prop r'].
      intros [= <- _]. destruct (truthy_string prop); now repeat constructor.
  - destruct (Ascii.eqb c "[").
    + destruct (scan_bracket 1 r). intros [= <- _].
      constructor; [apply bracket_token_ok|constructor].
    + intros [= <- _]. constructor.
Qed.

Lemma tokenize_loop_ok (fuel : nat) :
  forall expr tokens,
    Forall (fun t => token_ok t = true) tokens ->
    Forall (fun t => token_ok t = true) (tokenize_loop fuel expr tokens).
Proof.
  induction fuel as [|fuel IH]; intros expr tokens A; cbn [tokenize_loop];
    [exact A|].
  destruct (tokenize_step expr) as [[pushed rest]|] eqn:E; [|exact A].
  apply IH, Forall_app. split; [exact A|]. now apply tokenize_step_ok in E.
Qed.

(** X5. Of every token that the tokenizer emits: an Index token holds
    digits only, and [parseInt] reads it as an integer that is not
    negative; a Slice token holds a colon; a Wildcard token holds the
    star. *)
Theorem tokens_are_well_formed (expr : string) (t : Token) :
  In t (tokenize expr) ->
  token_ok t = true /\
  (type t = index ->
   exists n, parseInt (value t) = Some n /\ (0 <= n)%Z) /\
  (type t = slice -> includes (value t) ":"%char = true) /\
  (type t = wildcard -> value t = "*").
Proof.
  intros I.
  assert (K : token_ok t = true).
  { pose proof (tokenize_loop_ok (String.length expr) expr [] (Forall_nil _)) as F.
    rewrite Forall_forall in F. now apply F. }
  split; [exact K|]. unfold token_ok in K.
  repeat split; intros T; rewrite T in K.
  - destruct (parseInt_digits _ K) as [P Z]. eauto.
  - exact K.
  - now apply String.eqb_eq.
Qed.

Lemma tokens_are_well_formed_witness :
  exists n, parseInt "12" = Some n /\ (0 <= n)%Z.
Proof.
  exact (proj1 (proj2 (tokens_are_well_formed ".a[12]" (mkToken index "12")
                         (or_intror (or_introl eq_refl)))) eq_refl).
Defined.

(** ** The evaluator: paths, inputs, counts *)

Section PathFacts.
Context {N : JsNumber}.

Lemma apply_inputs_nil (fuel : nat) (token : Token) (results : list JsonValue) :
  apply_inputs fuel token [] results = Returned results.
Proof. reflexivity. Qed.

(** with no input, no segment yields a value *)
Lemma apply_tokens_nil (fuel : nat) (tokens : list Token) :
  apply_tokens fuel tokens [] = Returned [].
Proof. induction tokens as [|t r IH]; [reflexivity|exact IH]. Qed.

Lemma apply_tokens_app (fuel : nat) (ts1 ts2 : list Token)
      (results : list JsonValue) :
  apply_tokens fuel (ts1 ++ ts2) results =
  match apply_tokens fuel ts1 results with
  | Returned r => apply_tokens fuel ts2 r
  | Thrown m => Thrown m
  | OutOfFuel => OutOfFuel
  end.
Proof.
  revert results. induction ts1 as [|t r IH]; intros results;
    cbn [app apply_tokens]; [reflexivity|].
  destruct (applyToken fuel results t); auto.
Qed.

Lemma apply_property_own (fuel : nat) (fields : list (string * JsonValue))
      (key : string) (v : JsonValue) :
  own fields key = Some v ->
  applyToken fuel [JObject fields] (mkToken property key) = Returned [v].
Proof.
  intros O. rewrite applyToken_single. unfold apply_input.
  cbn [type value is_object isArray negb andb get]. now rewrite O.
Qed.

Lemma prototype_get_none (proto : JsonValue) (key : string) :
  inherited key = false -> prototype_get proto key = None.
Proof.
  unfold inherited. cbn [has]. intros I. apply orb_false_iff in I as [A B].
  unfold prototype_get. now rewrite A, B.
Qed.

Lemma apply_property_missing (fuel : nat) (d : JsonValue) (key : string) :
  inherited key = false ->
  match d with
  | JObject fields => own fields key = None
  | _ => True
  end ->
  applyToken fuel [d] (mkToken property key) = Returned [].
Proof.
  intros I O. rewrite applyToken_single. unfold apply_input.
  destruct d; cbn [type value is_object isArray negb andb get];
    try reflexivity.
  - now rewrite O, (prototype_get_none _ _ I).
  - now rewrite (prototype_get_none _ _ I).
Qed.

Lemma at_path_tokens (fuel : nat) (names : list string) :
  forall d v,
    at_path names d = Some v ->
    apply_tokens fuel (map (mkToken property) names) [d] = Returned [v].
Proof.
  induction names as [|n rest IH]; intros d v; cbn [at_path map].
  - now intros [= ->].
  - destruct d as [ | | | | | fields | | ]; try discriminate.
    destruct (own fields n) as [x|] eqn:O; [|discriminate].
    intros A. cbn [apply_tokens]. rewrite (apply_property_own _ _ _ _ O).
    now apply IH.
Qed.

Lemma at_path_missing (fuel : nat) (names : list string) :
  forallb (fun n => negb (inherited n)) names = true ->
  forall d,
    at_path names d = None ->
    apply_tokens fuel (map (mkToken property) names) [d] = Returned [].
Proof.
  induction names as [|n rest IH]; intros I d; cbn [at_path map];
    [discriminate|].
  cbn [forallb] in I. apply andb_true_iff in I as [I1 I2].
  apply negb_true_iff in I1. cbn [apply_tokens].
  destruct d as [ | | | | | fields | | ];
    try (intros _; rewrite apply_property_missing by (exact I1 || exact I);
         apply apply_tokens_nil).
  destruct (own fields n) as [x|] eqn:O.
  - intros A. rewrite (apply_property_own _ _ _ _ O). now apply IH.
  - intros _. rewrite apply_property_missing by assumption.
    apply apply_tokens_nil.
Qed.

(** X6. A query that begins with a path of plain names is the query of
    what follows the path on the value that the path reaches through the
    own members of the objects; in particular the path alone returns
    exactly this value. When a name of the path is missing, and no name of
    the path is a member that every object inherits, the query returns
    nothing, whatever follows. *)
Theorem query_follows_path (names : list string) (rest : string)
        (d : JsonValue) :
  forallb plain_name names = true -> boundary rest = true ->
  (forall v fuel,
      at_path names d = Some v ->
      queryJsonPath fuel d (String "$" (dotted names ++ rest))
      = queryJsonPath fuel v (String "$" rest)) /\
  (forall v fuel,
      at_path names d = Some v ->
      queryJsonPath fuel d (String "$" (dotted names)) = Returned [v]) /\
  (forall fuel,
      at_path names d = None ->
      forallb (fun n => negb (inherited n)) names = true ->
      queryJsonPath fuel d (String "$" (dotted names ++ rest)) = Returned []).
Proof.
  intros P B. split; [|split].
  - intros v fuel A. rewrite !query_root, (tokenize_names _ _ P B).
    now rewrite apply_tokens_app, (at_path_tokens _ _ _ _ A).
  - intros v fuel A. rewrite query_root.
    rewrite <- (append_nil_r (dotted names)).
    rewrite (tokenize_names names EmptyString P eq_refl).
    cbn [tokenize]. rewrite app_nil_r. now apply at_path_tokens.
  - intros fuel A I. rewrite query_root, (tokenize_names _ _ P B).
    rewrite apply_tokens_app, (at_path_missing _ _ I _ A).
    apply apply_tokens_nil.
Qed.

Lemma digits_plain (digits : string) :
  all_digits digits = true ->
  string_existsb is_bracket digits = false /\
  bracket_token digits = mkToken index digits.
Proof.
  intros D. destruct (digits_head _ D) as (c & r & -> & C & R).
  assert (F : string_forallb is_digit (String c r) = true)
    by (cbn; now rewrite C, R).
  destruct (digit_more_facts c C) as (_ & _ & _ & St & Qu & _).
  split.
  - apply (forallb_existsb_false is_digit); [|exact F].
    intros x X. now apply digit_facts.
  - unfold bracket_token, startsWith, includes.
    cbn [String.eqb strip_prefix]. rewrite St, Qu. cbn [andb].
    rewrite (forallb_existsb_false is_digit (Ascii.eqb ":") _);
      [|intros x X; now apply digit_facts|exact F].
    now rewrite D.
Qed.

(** X7. A bracket group of digits is read as an Index segment; on an array
    the query returns the element at this index, counted from zero, and
    nothing when the index is not below the length; on a value that is no
    array it returns nothing. *)
Theorem query_index (digits : string) (fuel : nat) :
  all_digits digits = true ->
  let path := String "[" (digits ++ "]") in
  let i := Z.to_nat (decimal_value 0 digits) in
  tokenize path = [mkToken index digits] /\
  (forall items,
      queryJsonPath fuel (JArray items) (String "$" path)
      = Returned match nth_error items i with
                 | Some v => [v]
                 | None => []
                 end) /\
  (forall d,
      isArray d = false ->
      queryJsonPath fuel d (String "$" path) = Returned []).
Proof.
  intros D path i. destruct (digits_plain _ D) as [B T].
  destruct (parseInt_digits _ D) as [P Z].
  assert (E : tokenize path = [mkToken index digits]).
  { unfold path. rewrite bracket_unfold, (scan_bracket_plain _ _ B).
    cbn [fst snd]. now rewrite T. }
  split; [exact E|split].
  - intros items. rewrite query_root, E, apply_tokens_single, applyToken_single.
    unfold apply_input. cbn [type value]. rewrite P.
    unfold in_bounds, push_at, push. fold i.
    destruct (Z.leb_spec 0 (decimal_value 0 digits)); [|lia]. cbn [andb].
    destruct (Z.ltb_spec (decimal_value 0 digits) (Z.of_nat (length items))).
    + now destruct (nth_error items i).
    + assert (L : (length items <= i)%nat) by (unfold i; lia).
      apply nth_error_None in L. now rewrite L.
  - intros d A. rewrite query_root, E, apply_tokens_single, applyToken_single.
    unfold apply_input. cbn [type value]. now destruct d.
Qed.

Lemma slice_loop_acc (items : list JsonValue) (end_ step : option Z)
      (fuel : nat) :
  forall si results,
    slice_loop fuel items si end_ step results =
    match slice_loop fuel items si end_ step [] with
    | Returned c => Returned (results ++ c)
    | Thrown m => Thrown m
    | OutOfFuel => OutOfFuel
    end.
Proof.
  induction fuel as [|fuel IH]; intros si results; cbn [slice_loop];
    destruct (js_lt si end_); try reflexivity; try now rewrite app_nil_r.
  set (x := match si with
            | Some i => if in_bounds items i then push_at [] items i else []
            | None => []
            end).
  assert (E : match si with
              | Some i => if in_bounds items i then push_at results items i
                          else results
              | None => results
              end = results ++ x).
  { unfold x, push_at, push. destruct si as [i|]; [|now rewrite app_nil_r].
    destruct (in_bounds items i); [|now rewrite app_nil_r].
    destruct (nth_error items (Z.to_nat i)); [reflexivity|now rewrite app_nil_r]. }
  rewrite E, (IH _ (results ++ x)), (IH _ x).
  destruct (slice_loop fuel items (js_add si step) end_ step []);
    [now rewrite app_assoc|reflexivity|reflexivity].
Qed.

(** what one input contributes does not depend on what was pushed before *)
Lemma apply_input_acc (fuel : nat) (token : Token) (input : JsonValue)
      (results : list JsonValue) :
  apply_input fuel token input results =
  match apply_input fuel token input [] with
  | Returned c => Returned (results ++ c)
  | Thrown m => Thrown m
  | OutOfFuel => OutOfFuel
  end.
Proof.
  unfold apply_input. destruct (type token).
  - destruct (is_object input && negb (isArray input));
      [|now rewrite app_nil_r].
    destruct (get input (value token)); [reflexivity|now rewrite app_nil_r].
  - destruct input; try now rewrite app_nil_r.
    destruct (parseInt (value token)); [|now rewrite app_nil_r].
    destruct (in_bounds items z); [|now rewrite app_nil_r].
    unfold push_at, push.
    destruct (nth_error items (Z.to_nat z)); [reflexivity|now rewrite app_nil_r].
  - destruct input; cbn [is_object]; try now rewrite app_nil_r.
    all: reflexivity.
  - now rewrite collect_preorder, (collect_preorder _ _ []).
  - destruct input; try now rewrite app_nil_r. reflexivity.
  - destruct input; try now rewrite app_nil_r. apply slice_loop_acc.
Qed.

Lemma apply_inputs_acc (fuel : nat) (token : Token) (inputs : list JsonValue) :
  forall results,
    apply_inputs fuel token inputs results =
    match apply_inputs fuel token inputs [] with
    | Returned c => Returned (results ++ c)
    | Thrown m => Thrown m
    | OutOfFuel => OutOfFuel
    end.
Proof.
  induction inputs as [|x rest IH]; intros results; cbn [apply_inputs];
    [now rewrite app_nil_r|].
  rewrite (apply_input_acc _ _ _ results).
  destruct (apply_input fuel token x []) as [c| |]; try reflexivity.
  rewrite (IH (results ++ c)), (IH c).
  destruct (apply_inputs fuel token rest []); try reflexivity.
  now rewrite app_assoc.
Qed.

(** the inputs of a segment contribute one after the other *)
Lemma applyToken_split (fuel : nat) (xs ys : list JsonValue) (token : Token) :
  applyToken fuel (xs ++ ys) token =
  match applyToken fuel xs token with
  | Returned a =>
      match applyToken fuel ys token with
      | Returned b => Returned (a ++ b)
      | Thrown m => Thrown m
      | OutOfFuel => OutOfFuel
      end
  | Thrown m => Thrown m
  | OutOfFuel => OutOfFuel
  end.
Proof.
  unfold applyToken. generalize (@nil JsonValue) at 1 2.
  induction xs as [|x rest IH]; intros acc; cbn [app apply_inputs].
  - rewrite apply_inputs_acc.
    now destruct (apply_inputs fuel token ys []).
  - destruct (apply_input fuel token x acc); auto.
Qed.

(** X8. The inputs of a segment contribute one by one, in their order:
    the result for two sequences of inputs, one after the other, is the
    result for the first followed by the result for the second, and the
    segment fails to end on them exactly when it fails to end on one. *)
Theorem applyToken_app (fuel : nat) (xs ys : list JsonValue) (token : Token) :
  applyToken fuel (xs ++ ys) token =
  match applyToken fuel xs token with
  | Returned a =>
      match applyToken fuel ys token with
      | Returned b => Returned (a ++ b)
      | Thrown m => Thrown m
      | OutOfFuel => OutOfFuel
      end
  | Thrown m => Thrown m
  | OutOfFuel => OutOfFuel
  end /\
  (forall a b,
      applyToken fuel xs token = Returned a ->
      applyToken fuel ys token = Returned b ->
      applyToken fuel (xs ++ ys) token = Returned (a ++ b)) /\
  (applyToken fuel xs token = OutOfFuel ->
   applyToken fuel (xs ++ ys) token = OutOfFuel).
Proof.
  split; [apply applyToken_split|split].
  - intros a b Ha Hb. now rewrite applyToken_split, Ha, Hb.
  - intros Ha. now rewrite applyToken_split, Ha.
Qed.

Lemma single_contribution (fuel : nat) (token : Token) (input : JsonValue)
      (c : list JsonValue) :
  type token = property \/ type token = index ->
  apply_input fuel token input [] = Returned c -> (length c <= 1)%nat.
Proof.
  unfold apply_input. intros [-> | ->].
  - destruct (is_object input && negb (isArray input));
      [|intros [= <-]; cbn; lia].
    destruct (get input (value token)); intros [= <-]; cbn; lia.
  - destruct input; try (intros [= <-]; cbn; lia).
    destruct (parseInt (value token)); [|intros [= <-]; cbn; lia].
    destruct (in_bounds items z); [|intros [= <-]; cbn; lia].
    unfold push_at, push. destruct (nth_error items (Z.to_nat z));
      intros [= <-]; cbn; lia.
Qed.

(** X9. A Property segment and an Index segment yield one value at most
    for each input: the result is never longer than the inputs. *)
Theorem property_and_index_select (fuel : nat) (token : Token)
        (inputs out : list JsonValue) :
  type token = property \/ type token = index ->
  applyToken fuel inputs token = Returned out ->
  (length out <= length inputs)%nat.
Proof.
  intros T. unfold applyToken. revert out.
  induction inputs as [|x rest IH]; intros out; cbn [apply_inputs];
    [intros [= <-]; cbn; lia|].
  destruct (apply_input fuel token x []) as [c| |] eqn:E; try discriminate.
  rewrite apply_inputs_acc.
  destruct (apply_inputs fuel token rest []) as [r| |]; try discriminate.
  intros [= <-]. rewrite length_app. cbn [length].
  pose proof (single_contribution _ _ _ _ T E). specialize (IH r eq_refl). lia.
Qed.

(** X10. An element passes a filter only if it is an object, not an array,
    on which the field of the predicate is defined: an element without the
    field fails every operator, the inequality included. *)
Theorem filter_passes_objects_with_field (item : JsonValue) (source : string) :
  evaluateFilter item source = true ->
  is_object item = true /\ isArray item = false /\
  exists field op rawValue fieldVal,
    match_anchored filter_regex source = Some [field; op; rawValue] /\
    In op filter_operators /\
    get item field = Some fieldVal /\
    compare op fieldVal (decode_literal rawValue) = true.
Proof.
  unfold evaluateFilter.
  destruct (match_anchored filter_regex source) as [caps|] eqn:M;
    [|discriminate].
  destruct (filter_match_shape _ _ M) as (field & op & raw & -> & _ & O & _).
  destruct (is_object item); cbn [negb orb]; [|discriminate].
  destruct (isArray item); [discriminate|].
  destruct (get item field) as [fieldVal|] eqn:G; [|discriminate].
  intros C. repeat split. now exists field, op, raw, fieldVal.
Qed.
End PathFacts.

Lemma query_follows_path_witness :
  queryJsonPath 0 users "$.users" = Returned [JArray [ann; bo]] /\
  queryJsonPath 0 users "$.users[1]" = queryJsonPath 0 (JArray [ann; bo]) "$[1]".
Proof.
  pose proof (query_follows_path (N := ZNumber) ["users"] "[1]" users
                eq_refl eq_refl) as [H1 [H2 _]].
  split.
  - exact (H2 (JArray [ann; bo]) 0%nat eq_refl).
  - exact (H1 (JArray [ann; bo]) 0%nat eq_refl).
Defined.

Lemma query_index_witness :
  queryJsonPath 0 five "$[1]" = Returned [jnum 20] /\
  queryJsonPath 0 five "$[7]" = Returned [].
Proof.
  split.
  - exact (proj1 (proj2 (query_index (N := ZNumber) "1" 0 eq_refl))
             [jnum 10; jnum 20; jnum 30; jnum 40; jnum 50]).
  - exact (proj1 (proj2 (query_index (N := ZNumber) "7" 0 eq_refl))
             [jnum 10; jnum 20; jnum 30; jnum 40; jnum 50]).
Defined.

Lemma property_and_index_select_witness :
  (length [@JString ZNumber "Ann"; JString "Bo"] <= length [ann; bo])%nat.
Proof.
  exact (property_and_index_select (N := ZNumber) 0 (mkToken property "name")
           [ann; bo] [JString "Ann"; JString "Bo"] (or_introl eq_refl) eq_refl).
Defined.

Lemma filter_passes_objects_with_field_witness :
  is_object ann = true /\ isArray ann = false.
Proof.
  pose proof (filter_passes_objects_with_field (N := ZNumber) ann "(@.age>21)"
                eq_refl) as (H1 & H2 & _).
  exact (conj H1 H2).
Defined.

(** ** Slices of step one *)

Section SliceRange.
Context {N : JsNumber}.
Local Open Scope Z_scope.



End SliceRange.


(** ** The sources of filters *)

Section ReadBack.
Variable A : Type.
Implicit Types (k : string -> option A) (cls : ascii -> bool).

Lemma or_else_value (x : option A) (y : unit -> option A) (a : A) :
  x = Some a -> or_else x y = Some a.
Proof. now intros ->. Qed.

Lemma greedy_star_stop cls (s : string) k :
  match head_char s with
  | Some c => cls c = false
  | None => True
  end ->
  greedy_star cls s k = k s.
Proof. destruct s as [|c r]; cbn; [reflexivity|now intros ->]. Qed.

(** a greedy repetition first takes all the characters of the class *)
Lemma greedy_star_all cls (s1 s2 : string) k (a : A) :
  string_forallb cls s1 = true ->
  match head_char s2 with
  | Some c => cls c = false
  | None => True
  end ->
  k s2 = Some a ->
  greedy_star cls (s1 ++ s2) k = Some a.
Proof.
  intros F B K. induction s1 as [|c r IH]; cbn [String.append].
  - now rewrite greedy_star_stop.
  - cbn in F. apply andb_true_iff in F as [C F]. cbn [greedy_star].
    rewrite C. now apply or_else_value, IH.
Qed.

Lemma lazy_star_unfold cls (s : string) k :
  lazy_star cls s k =
  or_else (k s) (fun _ =>
    match s with
    | String c r => if cls c then lazy_star cls r k else None
    | EmptyString => None
    end).
Proof. now destruct s. Qed.

(** a lazy repetition stops at the first place where what follows matches *)
Lemma lazy_star_first cls (mid tail : string) k (a : A) :
  string_forallb cls mid = true ->
  (forall m1 m2,
      mid = (m1 ++ m2)%string -> m2 <> EmptyString ->
      k (m2 ++ tail)%string = None) ->
  k tail = Some a ->
  lazy_star cls (mid ++ tail) k = Some a.
Proof.
  intros F H K. induction mid as [|c r IH]; cbn [String.append].
  - rewrite lazy_star_unfold. now apply or_else_value.
  - cbn in F. apply andb_true_iff in F as [C F].
    rewrite lazy_star_unfold.
    assert (E0 : k (String c (r ++ tail)) = None)
      by (apply (H EmptyString (String c r)); [reflexivity|discriminate]).
    rewrite E0. cbn [or_else]. rewrite C. apply (IH F).
    intros m1 m2 E NE. apply (H (String c m1) m2); [|exact NE].
    cbn. now rewrite E.
Qed.

Lemma first_branch_pick (pre post : list string) (b s rest : string) k (a : A) :
  Forall (fun b' => strip_prefix b' s = None) pre ->
  strip_prefix b s = Some rest -> k rest = Some a ->
  first_branch (pre ++ b :: post) s k = Some a.
Proof.
  intros P S K. induction P as [|b' pre' E _ IH]; cbn [app first_branch].
  - rewrite S. now apply or_else_value.
  - rewrite E. exact IH.
Qed.
End ReadBack.

Lemma forallb_append (p : ascii -> bool) (a b : string) :
  string_forallb p (a ++ b) = string_forallb p a && string_forallb p b.
Proof.
  induction a as [|c r IH]; cbn; [reflexivity|].
  now rewrite IH, andb_assoc.
Qed.

Lemma append_inv_tail (a b : string) (c : ascii) :
  (a ++ String c EmptyString)%string = (b ++ String c EmptyString)%string ->
  a = b.
Proof.
  revert b. induction a as [|x r IH]; intros [|y s]; cbn; intros E.
  - reflexivity.
  - injection E as _ E. now destruct s.
  - injection E as _ E. now destruct r.
  - injection E as -> E. now rewrite (IH _ E).
Qed.

Lemma last_char_append (m1 m2 : string) :
  m2 <> EmptyString -> last_char (m1 ++ m2) = last_char m2.
Proof.
  intros NE. induction m1 as [|c r IH]; [reflexivity|].
  cbn [String.append last_char]. rewrite IH.
  destruct (r ++ m2)%string eqn:E; [|reflexivity].
  destruct r; [now elim NE|discriminate].
Qed.

Lemma last_char_space (m : string) :
  m <> EmptyString -> string_forallb is_space m = true ->
  edge (last_char m) = false.
Proof.
  induction m as [|c r IH]; intros NE F; [now elim NE|].
  cbn in F. apply andb_true_iff in F as [C F]. cbn [last_char].
  destruct r as [|d r']; [cbn; now rewrite C|].
  apply IH; [discriminate|exact F].
Qed.

Lemma closing_fails (m : string) (caps : list string) :
  m <> EmptyString -> edge (last_char m) = true ->
  rmatch closing (m ++ ")") caps at_end = None.
Proof.
  intros NE L.
  destruct (rmatch closing (m ++ ")") caps at_end) as [a|] eqn:E;
    [|reflexivity].
  apply rmatch_sound in E as (s1 & s2 & found & E & P & K).
  destruct s2; [|discriminate]. rewrite append_nil_r in E.
  cbn in P. destruct P as (w & o & c1 & c2 & -> & _ & [W _] & [O _]).
  destruct O as [-> | ->].
  - rewrite append_nil_r in E. rewrite <- E, forallb_append in W.
    apply andb_true_iff in W as [_ W]. discriminate.
  - apply append_inv_tail in E. subst w.
    now rewrite (last_char_space m NE W) in L.
Qed.

Lemma operator_facts (op : string) :
  In op filter_operators ->
  exists c r, op = String c r /\ is_word c = false /\ is_space c = false.
Proof.
  intros I. cbn in I.
  repeat (destruct I as [<-|I]; [eexists; eexists; repeat split|]).
  destruct I.
Qed.

Ltac no_prefix :=
  match goal with
  | |- strip_prefix ?b ?s = None =>
      let E := fresh "E" in
      destruct (strip_prefix b s) eqn:E; [|reflexivity];
      apply strip_prefix_some in E; cbn in E; congruence
  end.

Lemma prefix_self (b s : string) : strip_prefix b (b ++ s) = Some s.
Proof. now apply strip_prefix_some. Qed.

(** the operator of a predicate is read as it is written *)
Lemma operator_read (op rawValue tail : string) (c : ascii) (r : string)
      (k : string -> option (list string)) (a : list string) :
  In op filter_operators -> rawValue = String c r ->
  ((String.eqb op ">" || String.eqb op "<") && Ascii.eqb c "=" = false)%bool ->
  k (rawValue ++ tail)%string = Some a ->
  first_branch filter_operators (op ++ rawValue ++ tail) k = Some a.
Proof.
  intros I -> G K. unfold filter_operators. cbn in I.
  destruct I as [<-|[<-|[<-|[<-|[<-|[<-|[]]]]]]].
  - eapply (first_branch_pick _ []); [constructor|apply prefix_self|exact K].
  - eapply (first_branch_pick _ ["=="]); [|apply prefix_self|exact K].
    repeat constructor; no_prefix.
  - eapply (first_branch_pick _ ["=="; "!="]); [|apply prefix_self|exact K].
    repeat constructor; no_prefix.
  - eapply (first_branch_pick _ ["=="; "!="; ">="]);
      [|apply prefix_self|exact K].
    repeat constructor; no_prefix.
  - cbn in G. apply Ascii.eqb_neq in G.
    eapply (first_branch_pick _ ["=="; "!="; ">="; "<="]);
      [|apply prefix_self|exact K].
    repeat constructor; no_prefix.
  - cbn in G. apply Ascii.eqb_neq in G.
    eapply (first_branch_pick _ ["=="; "!="; ">="; "<="; ">"]);
      [|apply prefix_self|exact K].
    repeat constructor; no_prefix.
Qed.

Section ReadBackSteps.
Variable A : Type.
Implicit Types (k : string -> list string -> option A) (cls : ascii -> bool).

Lemma step_seq (r1 r2 : regex) (s : string) (caps : list string) k :
  rmatch (Seq r1 r2) s caps k
  = rmatch r1 s caps (fun rest caps' => rmatch r2 rest caps' k).
Proof. reflexivity. Qed.

Lemma step_opt (c : ascii) (rest : string) (caps : list string) k (a : A) :
  k rest caps = Some a -> rmatch (OptChar c) (String c rest) caps k = Some a.
Proof.
  intros K. cbn [rmatch]. rewrite Ascii.eqb_refl. now apply or_else_value.
Qed.

Lemma step_star_none cls (s : string) (caps : list string) k :
  head_fails cls s -> rmatch (Star cls) s caps k = k s caps.
Proof. intros H. cbn [rmatch]. now rewrite greedy_star_stop. Qed.

Lemma step_chars (t s rest : string) (caps : list string) k :
  strip_prefix t s = Some rest -> rmatch (Chars t) s caps k = k rest caps.
Proof. intros P. cbn [rmatch]. now rewrite P. Qed.

Lemma step_group_plus cls (s1 s2 : string) (caps : list string) k (a : A) :
  s1 <> EmptyString -> string_forallb cls s1 = true -> head_fails cls s2 ->
  k s2 (caps ++ [s1]) = Some a ->
  rmatch (Group (Plus cls)) (s1 ++ s2) caps k = Some a.
Proof.
  intros NE F H K. cbn [rmatch].
  destruct s1 as [|c r]; [now elim NE|]. cbn [String.append].
  cbn in F. apply andb_true_iff in F as [C F]. rewrite C.
  apply greedy_star_all; [exact F|exact H|].
  change (String c (r ++ s2)) with (String c r ++ s2)%string.
  now rewrite consumed_append.
Qed.

Lemma step_group_lazy cls (s1 tail : string) (caps : list string) k (a : A) :
  s1 <> EmptyString -> string_forallb cls s1 = true ->
  (forall m1 m2 caps',
      s1 = (m1 ++ m2)%string -> m1 <> EmptyString -> m2 <> EmptyString ->
      k (m2 ++ tail)%string caps' = None) ->
  k tail (caps ++ [s1]) = Some a ->
  rmatch (Group (LazyPlus cls)) (s1 ++ tail) caps k = Some a.
Proof.
  intros NE F H K. cbn [rmatch].
  destruct s1 as [|c r]; [now elim NE|]. cbn [String.append].
  cbn in F. apply andb_true_iff in F as [C F]. rewrite C.
  apply lazy_star_first; [exact F| |].
  - intros m1 m2 E NE2. apply (H (String c m1) m2); [|discriminate|exact NE2].
    cbn. now rewrite E.
  - change (String c (r ++ tail)) with (String c r ++ tail)%string.
    now rewrite consumed_append.
Qed.
End ReadBackSteps.

Lemma step_group_operator (op rawValue tail : string) (caps : list string)
      (k : string -> list string -> option (list string)) (a : list string) :
  In op filter_operators ->
  ((String.eqb op ">" || String.eqb op "<")
   && match head_char rawValue with
      | Some c => Ascii.eqb c "="
      | None => false
      end = false)%bool ->
  rawValue <> EmptyString ->
  k (rawValue ++ tail)%string (caps ++ [op]) = Some a ->
  rmatch (Group (Alt filter_operators)) (op ++ rawValue ++ tail) caps k
  = Some a.
Proof.
  intros O G NE K. cbn [rmatch].
  destruct rawValue as [|c r]; [now elim NE|].
  apply (operator_read op (String c r) tail c r); [exact O|reflexivity|exact G|].
  now rewrite consumed_append.
Qed.

Lemma edge_head (s : string) :
  edge (head_char s) = true -> s <> EmptyString /\ head_fails is_space s.
Proof.
  destruct s as [|c r]; [discriminate|]. cbn. intros H.
  apply negb_true_iff in H. split; [discriminate|exact H].
Qed.

(** the groups of a predicate in plain form *)
Lemma filter_source_match (field op rawValue : string) :
  field <> EmptyString -> string_forallb is_word field = true ->
  In op filter_operators -> plain_literal op rawValue = true ->
  match_anchored filter_regex (filter_source field op rawValue)
  = Some [field; op; rawValue].
Proof.
  intros NF W O L. unfold plain_literal in L.
  apply andb_true_iff in L as [L G]. apply andb_true_iff in L as [L D].
  apply andb_true_iff in L as [H T]. apply negb_true_iff in G.
  destruct (edge_head _ H) as [NR HR].
  destruct (operator_facts op O) as (o0 & o1 & Eo & Ow & Os).
  unfold match_anchored, filter_source.
  change (fun (rest : string) (caps : list string) =>
            match rest with
            | EmptyString => Some caps
            | String _ _ => None
            end) with at_end.
  unfold filter_regex. cbn [String.append].
  rewrite step_seq. apply step_opt.
  rewrite step_seq, step_star_none by reflexivity.
  rewrite step_seq, (step_chars _ "@." _ (field ++ op ++ rawValue ++ ")"))
    by reflexivity.
  rewrite step_seq. apply step_group_plus; [exact NF|exact W| |].
  { rewrite Eo. exact Ow. }
  rewrite step_seq, step_star_none by (rewrite Eo; exact Os).
  rewrite step_seq. apply step_group_operator; [exact O|exact G|exact NR|].
  rewrite step_seq, step_star_none
    by (destruct rawValue; [now elim NR|exact HR]).
  rewrite step_seq. apply step_group_lazy; [exact NR|exact D| |reflexivity].
  intros m1 m2 caps' E N1 N2. apply closing_fails; [exact N2|].
  rewrite <- (last_char_append m1 m2 N2), <- E. exact T.
Qed.

(** X12. A predicate written as [(@.field op literal)], with a field of
    word characters, one of the six operators and a plain literal, is
    read back as this field, this operator and this literal; it is a
    source of the filter grammar. *)
Theorem filter_source_is_read_back (field op rawValue : string) :
  field <> EmptyString -> string_forallb is_word field = true ->
  In op filter_operators -> plain_literal op rawValue = true ->
  match_anchored filter_regex (filter_source field op rawValue)
  = Some [field; op; rawValue] /\
  filter_grammar (filter_source field op rawValue).
Proof.
  intros NF W O L.
  pose proof (filter_source_match field op rawValue NF W O L) as M.
  split; [exact M|]. exists [field; op; rawValue]. now apply match_sound.
Qed.

Lemma filter_source_is_read_back_witness :
  match_anchored filter_regex "(@.age>=21)" = Some ["age"; ">="; "21"].
Proof.
  exact (proj1 (filter_source_is_read_back "age" ">=" "21"
                  ltac:(discriminate) eq_refl
                  (or_intror (or_intror (or_introl eq_refl))) eq_refl)).
Defined.


Section StringFilters.
Context {N : JsNumber}.


End StringFilters.


(** ** The arguments of the command line *)

Lemma indexOf_skip (a x : string) (args : list string) :
  String.eqb x a = false ->
  indexOf a (x :: args) = option_map S (indexOf a args).
Proof. intros E. cbn [indexOf]. now rewrite E. Qed.

Lemma format_value_no_option (v : string) :
  string_mem v ["csv"; "json"] = true -> startsWith v "--" = false.
Proof.
  cbn. intros H. apply orb_true_iff in H as [H|H].
  - apply String.eqb_eq in H. now subst v.
  - apply orb_true_iff in H as [H|H]; [|discriminate].
    apply String.eqb_eq in H. now subst v.
Qed.

Lemma option_differs (a v : string) :
  startsWith a "--" = true -> startsWith v "--" = false ->
  String.eqb a v = false.
Proof.
  intros A V. apply String.eqb_neq. intros ->. congruence.
Qed.

(** an option word is no positional argument, given where a format value
    first occurs *)
Lemma format_value_dropped (args : list string) (v : string) (i : nat) :
  string_mem v ["csv"; "json"] = true ->
  indexOf v args = Some (S i) -> nth_error args i = Some "--format" ->
  is_positional args v = false.
Proof.
  intros M I P. unfold is_positional. rewrite I, M, P.
  cbn. apply andb_false_r.
Qed.

(** X14. A value [csv] or [json] that first occurs right after the option
    [--format] is no positional argument, wherever else it occurs: a file
    of this name given after [--format csv] is not read. *)
Theorem format_value_is_never_positional
        (args : list string) (v : string) (i : nat) :
  string_mem v ["csv"; "json"] = true ->
  indexOf v args = Some (S i) -> nth_error args i = Some "--format" ->
  ~ In v (positional args).
Proof.
  intros M I P H. unfold positional in H. apply filter_In in H as [_ H].
  now rewrite (format_value_dropped args v i M I P) in H.
Qed.

Lemma format_value_is_never_positional_witness :
  positional ["--format"; "csv"; "$.a"; "csv"] = ["$.a"] /\
  ~ In "csv" (positional ["--format"; "csv"; "$.a"; "csv"]).
Proof.
  split; [reflexivity|].
  exact (format_value_is_never_positional ["--format"; "csv"; "$.a"; "csv"]
           "csv" 0 eq_refl eq_refl eq_refl).
Defined.

(** where a format value first occurs among option words *)
Lemma option_words_format (pre rest : list string) (v : string) :
  option_words pre -> string_mem v ["csv"; "json"] = true -> In v pre ->
  exists i,
    indexOf v (pre ++ rest) = Some (S i) /\
    nth_error (pre ++ rest) i = Some "--format".
Proof.
  intros W M. pose proof (format_value_no_option v M) as V.
  induction W as [|a l A W IH|v' l M' W IH]; intros I.
  - destruct I.
  - destruct I as [->|I]; [congruence|].
    destruct (IH I) as (i & E & P). exists (S i).
    cbn [app]. rewrite (indexOf_skip _ _ _ (option_differs a v A V)), E.
    split; [reflexivity|exact P].
  - cbn [app]. rewrite (indexOf_skip v "--format") by reflexivity ||
      (apply (option_differs "--format" v eq_refl V)).
    destruct (String.eqb_spec v' v) as [->|D].
    + exists 0%nat. cbn [indexOf]. rewrite String.eqb_refl. now split.
    + destruct I as [I|[I|I]]; [subst v; discriminate|now elim D|].
      destruct (IH I) as (i & E & P). exists (S (S i)).
      apply String.eqb_neq in D.
      rewrite (indexOf_skip _ _ _ D), E. split; [reflexivity|exact P].
Qed.

(** X15. The expression that [main] evaluates is the first argument that
    begins with the root marker, when only option words come before it:
    options, and the value [csv] or [json] of an option [--format]. *)
Theorem expression_after_options (pre rest : list string) (e : string) :
  option_words pre -> startsWith e "$" = true ->
  expression_of (pre ++ e :: rest) = Some e /\
  exists more, positional (pre ++ e :: rest) = e :: more.
Proof.
  intros W E. set (args := pre ++ e :: rest).
  assert (Pe : is_positional args e = true).
  { unfold is_positional.
    destruct e as [|c r]; [discriminate|].
    unfold startsWith in E. cbn [strip_prefix] in E.
    destruct (Ascii.eqb_spec "$" c) as [<-|]; [|discriminate].
    cbn. now rewrite orb_true_r. }
  assert (Pp : forall a, In a pre -> is_positional args a = false).
  { intros a I. unfold is_positional.
    destruct (startsWith a "--") eqn:A; [reflexivity|]. cbn [negb andb].
    assert (M : string_mem a ["csv"; "json"] = true).
    { clear -W I A. induction W as [|b l B W IH|v l M W IH].
      - destruct I.
      - destruct I as [->|I]; [congruence|auto].
      - destruct I as [<-|[->|I]]; [discriminate|exact M|auto]. }
    destruct (option_words_format pre (e :: rest) a W M I) as (i & X & P).
    fold args in X, P. now rewrite X, M, P. }
  assert (F : positional args
              = e :: List.filter (is_positional args) rest).
  { unfold positional. unfold args at 2. rewrite filter_app.
    cbn [List.filter]. rewrite Pe.
    replace (List.filter (is_positional args) pre) with (@nil string);
      [reflexivity|].
    symmetry. generalize (is_positional args) Pp. clear.
    intros f Pp. induction pre as [|a l IH]; [reflexivity|].
    cbn [List.filter]. rewrite (Pp a (or_introl eq_refl)).
    apply IH. intros b I. apply Pp. now right. }
  split; [unfold expression_of; now rewrite F|eauto].
Qed.

Lemma expression_after_options_witness :
  expression_of ["--count"; "--format"; "csv"; "$.users[*]"; "data.json"]
  = Some "$.users[*]".
Proof.
  exact (proj1 (expression_after_options ["--count"; "--format"; "csv"]
                  ["data.json"] "$.users[*]"
                  (option_word "--count" _ eq_refl
                     (format_words "csv" _ eq_refl no_words))
                  eq_refl)).
Defined.

(** ** The table of [toCsv] *)

Lemma plain_run (c tail cur : string) :
  includes c ","%char = false -> includes c dquote = false ->
  csv_cells Plain cur (c ++ tail) = csv_cells Plain (cur ++ c) tail.
Proof.
  unfold includes. revert cur.
  induction c as [|x r IH]; intros cur Hc Hq; cbn [String.append].
  - now rewrite append_nil_r.
  - cbn [string_existsb] in Hc, Hq.
    apply orb_false_iff in Hc as [Xc Hc]. apply orb_false_iff in Hq as [Xq Hq].
    cbn [csv_cells]. rewrite (Ascii.eqb_sym x ","), Xc, (Ascii.eqb_sym x dquote), Xq.
    rewrite (IH _ Hc Hq), append_assoc. reflexivity.
Qed.

Lemma quoted_run (c tail cur : string) :
  csv_cells Quoted cur (double_quotes c ++ String dquote tail)
  = csv_cells Closing (cur ++ c) tail.
Proof.
  revert cur. induction c as [|x r IH]; intros cur;
    cbn [double_quotes String.append].
  - cbn [csv_cells]. rewrite Ascii.eqb_refl. now rewrite append_nil_r.
  - destruct (Ascii.eqb_spec x dquote) as [->|D].
    + cbn [String.append csv_cells]. rewrite !Ascii.eqb_refl.
      rewrite IH, append_assoc. reflexivity.
    + apply Ascii.eqb_neq in D. cbn [String.append csv_cells]. rewrite D.
      rewrite IH, append_assoc. reflexivity.
Qed.

(** a cell is read back as it was before it was escaped, up to its end *)
Lemma escaped_cell (c tail : string) :
  csv_cells Plain EmptyString (csv_escape c ++ tail)
  = match tail with
    | EmptyString => [c]
    | String d r =>
        if Ascii.eqb d ","%char then c :: csv_cells Plain EmptyString r
        else csv_cells Plain EmptyString (csv_escape c ++ tail)
    end.
Proof.
  destruct tail as [|d r]; [|destruct (Ascii.eqb d ",") eqn:E; [|reflexivity]].
  - rewrite append_nil_r. unfold csv_escape.
    destruct (includes c "," || includes c dquote || includes c newline) eqn:Q.
    + cbn [csv_cells]. 
      assert (dquote <> ","%char) by discriminate.
      replace (Ascii.eqb dquote ",") with false by reflexivity.
      rewrite Ascii.eqb_refl. rewrite quoted_run. reflexivity.
    + apply orb_false_iff in Q as [Q _]. apply orb_false_iff in Q as [Qc Qq].
      rewrite <- (append_nil_r c) at 1. rewrite (plain_run _ _ _ Qc Qq).
      reflexivity.
  - apply Ascii.eqb_eq in E. subst d. unfold csv_escape.
    destruct (includes c "," || includes c dquote || includes c newline) eqn:Q.
    + cbn [String.append csv_cells].
      replace (Ascii.eqb dquote ",") with false by reflexivity.
      rewrite Ascii.eqb_refl, append_assoc. cbn [String.append].
      rewrite quoted_run. cbn [csv_cells].
      replace (Ascii.eqb "," dquote) with false by reflexivity.
      now rewrite Ascii.eqb_refl.
    + apply orb_false_iff in Q as [Q _]. apply orb_false_iff in Q as [Qc Qq].
      rewrite (plain_run _ _ _ Qc Qq). cbn [csv_cells String.append].
      now rewrite Ascii.eqb_refl.
Qed.

(** X16. The line of a row of the table is read back, by a reader of comma
    separated values, as the texts of its cells: the escaping of [toCsv]
    loses nothing of a text, whatever commas, double quotes and line feeds
    it holds; the empty text of a cell without a value is escaped as
    itself. *)
Theorem csv_row_round_trip (texts : list string) :
  texts <> [] ->
  read_row (csv_row texts) = texts /\ csv_escape EmptyString = EmptyString.
Proof.
  intros NE. split; [|reflexivity]. revert NE.
  unfold read_row, csv_row.
  induction texts as [|c rest IH]; intros NE; [now elim NE|].
  destruct rest as [|c' rest'].
  - cbn [map String.concat].
    rewrite <- (append_nil_r (csv_escape c)). now rewrite escaped_cell.
  - cbn [map String.concat] in *. cbn [String.append].
    rewrite escaped_cell. rewrite Ascii.eqb_refl.
    f_equal. apply IH. discriminate.
Qed.

Lemma csv_row_round_trip_witness :
  read_row (csv_row ["Ann, Bo"; "x"]) = ["Ann, Bo"; "x"].
Proof.
  exact (proj1 (csv_row_round_trip ["Ann, Bo"; "x"] ltac:(discriminate))).
Defined.






Section CsvFacts.
Context {N : JsNumber}.



End CsvFacts.

(** ** Queries: errors, ends, origins, members of the elements *)

Section QueryFacts.
Context {N : JsNumber}.



(** X20. When no Property or Recursive segment of a query names a member
    that every object inherits, every value that the query returns occurs
    in the document, and is a value of the document format when the
    document is. *)
Theorem query_results_occur_in_document (d : JsonValue) (expression : string)
        (fuel : nat) (out : list JsonValue) :
  forallb names_own_members (tokenize (slice1 expression)) = true ->
  queryJsonPath fuel d expression = Returned out ->
  Forall (fun v => present v d) out /\
  (is_json d = true -> Forall (fun v => runtime_value v = false) out).
Proof.
  intros T Q. unfold queryJsonPath in Q.
  destruct (startsWith expression "$"); [|discriminate].
  pose proof (results_occur_in_document d _ _ _ T Q) as P.
  split; [exact P|]. intros J. rewrite Forall_forall in *.
  intros v I. apply (present_json d v J). now apply P.
Qed.

Lemma apply_property_inputs (fuel : nat) (k : string) (inputs : list JsonValue) :
  inherited k = false ->
  applyToken fuel inputs (mkToken property k)
  = Returned (flat_map (own_member k) inputs).
Proof.
  intros I. induction inputs as [|x rest IH]; [reflexivity|].
  change (x :: rest) with ([x] ++ rest). rewrite applyToken_split, IH.
  rewrite applyToken_single. unfold apply_input. cbn [type value].
  assert (G : get x k = match x with
                        | JObject fields => own fields k
                        | _ => None
                        end).
  { destruct x; cbn [get]; try reflexivity.
    - destruct (own fields k); [reflexivity|now apply prototype_get_none].
    - now apply prototype_get_none. }
  destruct x; cbn [is_object isArray negb andb own_member flat_map app];
    try reflexivity.
  - rewrite G. now destruct (own fields k).
  - now rewrite G.
Qed.

(** X21. The query [$[*].k] and the query [$.*.k], for a plain name [k]
    that no object inherits, return the members [k] of the elements of an
    array, in the order of the elements; an element that is no object, or
    that has no member [k], is passed over. *)
Theorem members_of_elements (k : string) (items : list JsonValue) (fuel : nat) :
  plain_name k = true -> inherited k = false ->
  queryJsonPath fuel (JArray items) (String "$" ("[*]" ++ String "." k))
  = Returned (flat_map (own_member k) items) /\
  queryJsonPath fuel (JArray items) (String "$" (".*" ++ String "." k))
  = Returned (flat_map (own_member k) items).
Proof.
  intros P I.
  assert (T : tokenize (String "." k) = [mkToken property k]).
  { rewrite <- (append_nil_r k) at 1.
    now rewrite (tokenize_dot_name k EmptyString P eq_refl). }
  assert (W : applyToken fuel [JArray items] (mkToken wildcard "*")
              = Returned items) by now rewrite applyToken_single.
  split; rewrite query_root.
  - change ("[*]" ++ String "." k)%string
      with (String "[" (String "*" (String "]" (String "." k)))).
    rewrite bracket_unfold.
    change (String "*" (String "]" (String "." k)))
      with ("*" ++ String "]" (String "." k))%string.
    rewrite (scan_bracket_plain "*" _ eq_refl). cbn [fst snd].
    rewrite T. change (bracket_token "*") with (mkToken wildcard "*").
    cbn [apply_tokens]. rewrite W.
    rewrite (apply_property_inputs _ _ _ I). reflexivity.
  - assert (E : tokenize (".*" ++ String "." k)
                = mkToken wildcard "*" :: tokenize (String "." k))
      by (now rewrite tokenize_unfold).
    rewrite E, T. cbn [apply_tokens]. rewrite W.
    rewrite (apply_property_inputs _ _ _ I). reflexivity.
Qed.

Lemma evaluateFilter_source (item : JsonValue) (field op rawValue : string) :
  field <> EmptyString -> string_forallb is_word field = true ->
  In op filter_operators -> plain_literal op rawValue = true ->
  is_object item = true -> isArray item = false ->
  evaluateFilter item (filter_source field op rawValue)
  = match get item field with
    | Some fieldVal => compare op fieldVal (decode_literal rawValue)
    | None => false
    end.
Proof.
  intros NF W O L Oi A. unfold evaluateFilter.
  now rewrite (filter_source_match _ _ _ NF W O L), Oi, A.
Qed.

(** X22. On an object, the predicates [(@.field==true)],
    [(@.field==false)] and [(@.field==null)] hold exactly when the field
    is the boolean or the null that is named: a string of the same
    spelling does not pass. *)
Theorem keyword_filter (item : JsonValue) (field : string) :
  field <> EmptyString -> string_forallb is_word field = true ->
  is_object item = true -> isArray item = false ->
  (evaluateFilter item (filter_source field "==" "true") = true <->
   get item field = Some (JBool true)) /\
  (evaluateFilter item (filter_source field "==" "false") = true <->
   get item field = Some (JBool false)) /\
  (evaluateFilter item (filter_source field "==" "null") = true <->
   get item field = Some JNull).
Proof.
  intros NF W O A. split; [|split].
  - rewrite (evaluateFilter_source item field "==" "true" NF W
               (or_introl eq_refl) eq_refl O A).
    destruct (get item field) as [[ | [] | | | | | | ]|]; cbn;
      split; congruence.
  - rewrite (evaluateFilter_source item field "==" "false" NF W
               (or_introl eq_refl) eq_refl O A).
    destruct (get item field) as [[ | [] | | | | | | ]|]; cbn;
      split; congruence.
  - rewrite (evaluateFilter_source item field "==" "null" NF W
               (or_introl eq_refl) eq_refl O A).
    destruct (get item field) as [[ | [] | | | | | | ]|]; cbn;
      split; congruence.
Qed.

Lemma ordering_operator (op : string) (cmp : number -> number -> bool) :
  ordering_of op = Some cmp ->
  In op filter_operators /\
  forall fieldVal literal,
    compare op fieldVal literal = both_numbers cmp fieldVal literal.
Proof.
  unfold ordering_of.
  destruct (String.eqb_spec op ">") as [->|_];
    [intros [= <-]; split; [cbn; tauto|reflexivity]|].
  destruct (String.eqb_spec op "<") as [->|_];
    [intros [= <-]; split; [cbn; tauto|reflexivity]|].
  destruct (String.eqb_spec op ">=") as [->|_];
    [intros [= <-]; split; [cbn; tauto|reflexivity]|].
  destruct (String.eqb_spec op "<=") as [->|_];
    [intros [= <-]; split; [cbn; tauto|reflexivity]|].
  discriminate.
Qed.

Lemma decode_bare (rawValue : string) :
  bare_literal rawValue = true ->
  decode_literal rawValue
  = match toNumber rawValue with
    | Some n => CNumber n
    | None => CString rawValue
    end.
Proof.
  unfold bare_literal, decode_literal. intros B.
  apply andb_true_iff in B as [B Q]. apply andb_true_iff in B as [B U].
  apply andb_true_iff in B as [T F].
  apply negb_true_iff in T, F, U, Q. now rewrite T, F, U, Q.
Qed.

(** X23. On an object, a predicate [(@.field op literal)] with an
    ordering operator and a literal that [Number] reads as the number [n]
    holds exactly when the field is a number that compares so with [n];
    with a literal that [Number] does not read, it holds of nothing. *)
Theorem ordering_filter (item : JsonValue) (field op rawValue : string)
        (cmp : number -> number -> bool) :
  field <> EmptyString -> string_forallb is_word field = true ->
  ordering_of op = Some cmp ->
  plain_literal op rawValue = true -> bare_literal rawValue = true ->
  is_object item = true -> isArray item = false ->
  (forall n,
      toNumber rawValue = Some n ->
      (evaluateFilter item (filter_source field op rawValue) = true <->
       exists a, get item field = Some (JNumber a) /\ cmp a n = true)) /\
  (toNumber rawValue = None ->
   evaluateFilter item (filter_source field op rawValue) = false).
Proof.
  intros NF W C L B O A. destruct (ordering_operator _ _ C) as [I E].
  rewrite (evaluateFilter_source item field op rawValue NF W I L O A).
  rewrite (decode_bare _ B). split.
  - intros n ->. destruct (get item field) as [fieldVal|].
    + rewrite E, both_numbers_true. split.
      * intros (a & b & -> & [= <-] & H). now exists a.
      * intros (a & [= ->] & H). now exists a, n.
    + split; [discriminate|now intros (a & [=] & _)].
  - intros ->. destruct (get item field) as [fieldVal|]; [|reflexivity].
    rewrite E. now destruct fieldVal.
Qed.
End QueryFacts.


Lemma query_results_occur_in_document_witness :
  Forall (fun v => present v users) [ann].
Proof.
  exact (proj1 (query_results_occur_in_document (N := ZNumber) users
                  "$.users[?(@.age>21)]" 0 [ann] eq_refl eq_refl)).
Defined.

Lemma members_of_elements_witness :
  queryJsonPath 0 (JArray [ann; jnum 1; bo]) "$[*].name"
  = Returned [JString "Ann"; JString "Bo"].
Proof.
  exact (proj1 (members_of_elements (N := ZNumber) "name" [ann; jnum 1; bo] 0
                  eq_refl eq_refl)).
Defined.

Lemma keyword_filter_witness :
  evaluateFilter (@JObject ZNumber [("active", JBool true)]) "(@.active==true)"
  = true.
Proof.
  apply (proj1 (keyword_filter (N := ZNumber) (JObject [("active", JBool true)])
                  "active" ltac:(discriminate) eq_refl eq_refl eq_refl)).
  reflexivity.
Defined.

Lemma ordering_filter_witness :
  evaluateFilter ann "(@.age>21)" = true /\
  evaluateFilter ann "(@.age>x)" = false.
Proof.
  split.
  - apply (proj1 (ordering_filter (N := ZNumber) ann "age" ">" "21" Z.gtb
                    ltac:(discriminate) eq_refl eq_refl eq_refl eq_refl
                    eq_refl eq_refl) 21%Z eq_refl).
    exists 30%Z. split; reflexivity.
  - exact (proj2 (ordering_filter (N := ZNumber) ann "age" ">" "x" Z.gtb
                    ltac:(discriminate) eq_refl eq_refl eq_refl eq_refl
                    eq_refl eq_refl) eq_refl).
Defined.
